(** * LaRA edge filter: the pairwise Gotoh aligner and [generateEdges]
    (src/src/edge_filter.hpp), embedded in Rocq. *)

From Stdlib Require Import ZArith Lia List QArith.
From stdpp Require Import base list.
Import ListNotations.

Open Scope Z_scope.

(** ** Data model *)

(** The alphabet of [seqan::Rna5String]: A, C, G, U and the unknown N. *)
Inductive Rna5 := rA | rC | rG | rU | rN.

Definition Rna5_eqb (x y : Rna5) : bool :=
  match x, y with
  | rA, rA | rC, rC | rG, rG | rU, rU | rN, rN => true
  | _, _ => false
  end.

(** Modelled from the spec: [ScoreType] and the constant [infinity] of
    data_types.hpp (not part of src/).  The spec's ScoreValue is "a totally
    ordered, additive numeric domain wide enough to accumulate sums without
    overflow, plus a designated negative infinity sentinel strictly less than
    any attainable real score; addition of the sentinel with any finite value
    remains the sentinel".  [Fin z] is a finite score, [NegInf] is the value
    written [-infinity] in the source. *)
Inductive ScoreType := NegInf | Fin (z : Z).

(** [+] on ScoreType (the sentinel absorbs finite summands). *)
Definition sadd (x y : ScoreType) : ScoreType :=
  match x, y with
  | Fin a, Fin b => Fin (a + b)
  | _, _ => NegInf
  end.

(** [std::max] on two ScoreType values. *)
Definition smax (x y : ScoreType) : ScoreType :=
  match x, y with
  | NegInf, _ => y
  | _, NegInf => x
  | Fin a, Fin b => Fin (Z.max a b)
  end.

(** [std::max({x, y, z})]. *)
Definition smax3 (x y z : ScoreType) : ScoreType := smax x (smax y z).

(** [x >= y] on ScoreType. *)
Definition sge (x y : ScoreType) : bool :=
  match x, y with
  | _, NegInf => true
  | NegInf, Fin _ => false
  | Fin a, Fin b => Z.geb a b
  end.

(** [x < y] on ScoreType. *)
Definition slt (x y : ScoreType) : bool := negb (sge x y).

(** [x - d] for a finite [ScoreType] [d]. *)
Definition ssub (x : ScoreType) (d : Z) : ScoreType :=
  match x with
  | Fin a => Fin (a - d)
  | NegInf => NegInf
  end.

(** Modelled from the spec: [SeqScoreMatrix] of score.hpp (not part of src/):
    a substitution score lookup over alphabet pairs ([seqan::score]) and the
    two gap penalties [data_gap_open] and [data_gap_extend]. *)
Record SeqScoreMatrix := mkScore {
  score_fn : Rna5 -> Rna5 -> Z;
  data_gap_open : Z;
  data_gap_extend : Z
}.

(** [seqan::score(score, x, y)]. *)
Definition score (sc : SeqScoreMatrix) (x y : Rna5) : ScoreType :=
  Fin (score_fn sc x y).

(** [seq[i]] for an index in range (the default is never read). *)
Definition at_ (s : list Rna5) (i : nat) : Rna5 := nth i s rA.

(** ** PairwiseGotoh *)

(** The object: the two lengths and the three flat matrices. *)
Record PairwiseGotoh := mkGotoh {
  lenA : nat;
  lenB : nat;
  matrixM : list ScoreType;
  matrixH : list ScoreType;
  matrixV : list ScoreType
}.

(** The flat index [(lenB + 1ul) * posA + posB] of [get]. *)
Definition idx (lenB posA posB : nat) : nat := ((lenB + 1) * posA + posB)%nat.

(** [get(matrix, posA, posB)] as an rvalue (the default [Fin 0] is never
    read for an in-range cell, see [make_gotoh_cell]). *)
Definition get (lenB : nat) (matrix : list ScoreType) (posA posB : nat) : ScoreType :=
  default (Fin 0) (matrix !! idx lenB posA posB).

(** [get(matrix, posA, posB) = v]. *)
Definition set (lenB : nat) (matrix : list ScoreType) (posA posB : nat) (v : ScoreType)
  : list ScoreType :=
  <[idx lenB posA posB := v]> matrix.

(** The three matrices while the constructor runs. *)
Record Tables := mkTables { tM : list ScoreType; tH : list ScoreType; tV : list ScoreType }.

Section Gotoh.
Variable sc : SeqScoreMatrix.
Variables seqA seqB : list Rna5.

Let LA := length seqA.
Let LB := length seqB.
Let go := data_gap_open sc.
Let ge := data_gap_extend sc.

(** The first initialisation loop body, for [a]. *)
Definition init_col_step (t : Tables) (a : nat) : Tables :=
  mkTables (set LB (tM t) (S a) 0 (Fin (go + ge * Z.of_nat a)))
           (set LB (tH t) (S a) 0 NegInf)
           (set LB (tV t) (S a) 0 (Fin (go + ge * Z.of_nat a))).

(** The second initialisation loop body, for [b]. *)
Definition init_row_step (t : Tables) (b : nat) : Tables :=
  mkTables (set LB (tM t) 0 (S b) (Fin (go + ge * Z.of_nat b)))
           (set LB (tH t) 0 (S b) (Fin (go + ge * Z.of_nat b)))
           (set LB (tV t) 0 (S b) NegInf).

(** The body of the fill loop for [(a, b)]: three writes in source order. *)
Definition fill_step (a : nat) (t : Tables) (b : nat) : Tables :=
  let m := set LB (tM t) (S a) (S b)
             (sadd (smax3 (get LB (tM t) a b) (get LB (tH t) a b) (get LB (tV t) a b))
                   (score sc (at_ seqA a) (at_ seqB b))) in
  let h := set LB (tH t) (S a) (S b)
             (smax3 (sadd (get LB m (S a) b) (Fin go))
                    (sadd (get LB (tH t) (S a) b) (Fin ge))
                    (sadd (get LB (tV t) (S a) b) (Fin go))) in
  let v := set LB (tV t) (S a) (S b)
             (smax3 (sadd (get LB m a (S b)) (Fin go))
                    (sadd (get LB h a (S b)) (Fin go))
                    (sadd (get LB (tV t) a (S b)) (Fin ge))) in
  mkTables m h v.

(** [resize((lenA + 1) * (lenB + 1))] value-initialises to 0. *)
Definition resized : Tables :=
  let z := replicate ((LA + 1) * (LB + 1)) (Fin 0) in mkTables z z z.

(** Cell (0,0) of the initialisation. *)
Definition init_origin (t : Tables) : Tables :=
  mkTables (set LB (tM t) 0 0 (Fin 0)) (set LB (tH t) 0 0 NegInf) (set LB (tV t) 0 0 NegInf).

(** The constructor [PairwiseGotoh(seqA, seqB, score)]. *)
Definition build_tables : Tables :=
  let t0 := init_origin resized in
  let t1 := fold_left init_col_step (seq 0 LA) t0 in
  let t2 := fold_left init_row_step (seq 0 LB) t1 in
  fold_left (fun t a => fold_left (fill_step a) (seq 0 LB) t) (seq 0 LA) t2.

Definition make_gotoh : PairwiseGotoh :=
  let t := build_tables in mkGotoh LA LB (tM t) (tH t) (tV t).

End Gotoh.

(** [getPrefixScore(posA, posB)].  Its [assert(posA <= lenA && posB <= lenB)]
    is the precondition of every statement about it below. *)
Definition getPrefixScore (g : PairwiseGotoh) (posA posB : nat) : ScoreType :=
  smax3 (get (lenB g) (matrixM g) posA posB)
        (get (lenB g) (matrixH g) posA posB)
        (get (lenB g) (matrixV g) posA posB).

(** [getOptimalScore()]. *)
Definition getOptimalScore (g : PairwiseGotoh) : ScoreType :=
  getPrefixScore g (lenA g) (lenB g).

(** ** The recurrence the fill loop evaluates *)

(** The three table entries of one cell. *)
Record Cell := mkCell { cM : ScoreType; cH : ScoreType; cV : ScoreType }.

Section Recurrence.
Variable sc : SeqScoreMatrix.
Variables seqA seqB : list Rna5.

Let go := data_gap_open sc.
Let ge := data_gap_extend sc.

(** Cell [(a, b)] of the three matrices as the constructor defines it: the
    boundary written by the initialisation loops, the interior by the
    recurrence of the fill loop. *)
Fixpoint cell (a b : nat) {struct a} : Cell :=
  match a with
  | O =>
      match b with
      | O => mkCell (Fin 0) NegInf NegInf
      | S b' => mkCell (Fin (go + ge * Z.of_nat b')) (Fin (go + ge * Z.of_nat b')) NegInf
      end
  | S a' =>
      let fix row (b : nat) : Cell :=
        match b with
        | O => mkCell (Fin (go + ge * Z.of_nat a')) NegInf (Fin (go + ge * Z.of_nat a'))
        | S b' =>
            let d := cell a' b' in
            let l := row b' in
            let u := cell a' (S b') in
            mkCell (sadd (smax3 (cM d) (cH d) (cV d)) (score sc (at_ seqA a') (at_ seqB b')))
                   (smax3 (sadd (cM l) (Fin go)) (sadd (cH l) (Fin ge)) (sadd (cV l) (Fin go)))
                   (smax3 (sadd (cM u) (Fin go)) (sadd (cH u) (Fin go)) (sadd (cV u) (Fin ge)))
        end in
      row b
  end.

End Recurrence.

(** ** Alignments (the spec's notion of an affine-gap alignment score) *)

(** One alignment column: a match/mismatch column [ColM x y], a column
    [ColH y] that consumes a residue of B against a gap (the HorizontalGap
    state), a column [ColV x] that consumes a residue of A against a gap (the
    VerticalGap state). *)
Inductive Column := ColM (x y : Rna5) | ColH (y : Rna5) | ColV (x : Rna5).

(** The state an alignment is in after its last column ([KStart]: empty). *)
Inductive Kind := KStart | KM | KH | KV.

Definition col_kind (c : Column) : Kind :=
  match c with ColM _ _ => KM | ColH _ => KH | ColV _ => KV end.

Definition Kind_eqb (k l : Kind) : bool :=
  match k, l with
  | KStart, KStart | KM, KM | KH, KH | KV, KV => true
  | _, _ => false
  end.

Fixpoint projA (cols : list Column) : list Rna5 :=
  match cols with
  | [] => []
  | ColM x _ :: cs | ColV x :: cs => x :: projA cs
  | ColH _ :: cs => projA cs
  end.

Fixpoint projB (cols : list Column) : list Rna5 :=
  match cols with
  | [] => []
  | ColM _ y :: cs | ColH y :: cs => y :: projB cs
  | ColV _ :: cs => projB cs
  end.

(** [cols] is a full alignment of [A] with [B]. *)
Definition aligns (cols : list Column) (A B : list Rna5) : Prop :=
  projA cols = A /\ projB cols = B.

(** The score of a column after a column of kind [prev]: the substitution
    score, or gap-open for the first column of a gap run and gap-extend for
    every further one. *)
Definition col_score (sc : SeqScoreMatrix) (prev : Kind) (c : Column) : Z :=
  match c with
  | ColM x y => score_fn sc x y
  | ColH _ => if Kind_eqb prev KH then data_gap_extend sc else data_gap_open sc
  | ColV _ => if Kind_eqb prev KV then data_gap_extend sc else data_gap_open sc
  end.

Fixpoint aln_score (sc : SeqScoreMatrix) (prev : Kind) (cols : list Column) : Z :=
  match cols with
  | [] => 0
  | c :: cs => col_score sc prev c + aln_score sc (col_kind c) cs
  end.

(** The score of a full alignment. *)
Definition alignment_score (sc : SeqScoreMatrix) (cols : list Column) : Z :=
  aln_score sc KStart cols.

(** ** generateEdges *)

Definition ScoreType_eqb (x y : ScoreType) : bool :=
  match x, y with
  | NegInf, NegInf => true
  | Fin a, Fin b => Z.eqb a b
  | _, _ => false
  end.

(** A division whose divisor is zero is undefined in the source: [None]. *)
Definition qdiv (x : Q) (d : Z) : option Q :=
  if Z.eqb d 0 then None else Some (Qdiv x (inject_Z d)).

Section Edges.
(** Modelled from the spec: [factor2int] of data_types.hpp (not part of
    src/), the spec's scaleConstant, "a fixed-point scaling factor defined by
    the external scoring module". *)
Variable factor2int : Z.

(** [forward.getOptimalScore() / factor2int / std::max(lenA, lenB)]
    (the optimal score is finite, so the [NegInf] case is never reached). *)
Definition identityScore (opt : ScoreType) (lenA lenB : nat) : option Q :=
  match opt with
  | Fin z =>
      match qdiv (inject_Z z) factor2int with
      | Some q => qdiv q (Z.of_nat (Nat.max lenA lenB))
      | None => None
      end
  | NegInf => None
  end.

(** The condition of the [if] in the loop of [generateEdges]. *)
Definition edge_test (forward backward : PairwiseGotoh) (sc : SeqScoreMatrix)
    (seqA seqB : list Rna5) (threshold : ScoreType) (a b : nat) : bool :=
  let lenA := length seqA in
  let lenB := length seqB in
  sge (sadd (sadd (getPrefixScore forward a b) (score sc (at_ seqA a) (at_ seqB b)))
            (getPrefixScore backward (lenA - a - 1) (lenB - b - 1)))
      threshold.

(** The double loop of [generateEdges] writing [edges[lenB * a + b] = true]. *)
Definition edge_loop (forward backward : PairwiseGotoh) (sc : SeqScoreMatrix)
    (seqA seqB : list Rna5) (threshold : ScoreType) (edges : list bool) : list bool :=
  let lenA := length seqA in
  let lenB := length seqB in
  fold_left
    (fun e a =>
       fold_left
         (fun e b =>
            if edge_test forward backward sc seqA seqB threshold a b
            then <[(lenB * a + b)%nat := true]> e else e)
         (seq 0 lenB) e)
    (seq 0 lenA) edges.

(** [generateEdges(edges, seqA, seqB, scoreMatrix, suboptimalDiff)]: the
    updated [edges] vector and the returned identity score ([None] where its
    division is undefined); [None] overall when [SEQAN_ASSERT_EQ] aborts. *)
Definition generateEdges (edges : list bool) (seqA seqB : list Rna5)
    (scoreMatrix : SeqScoreMatrix) (suboptimalDiff : Z) : option (list bool * option Q) :=
  let reverseA := rev seqA in
  let reverseB := rev seqB in
  let forward := make_gotoh scoreMatrix seqA seqB in
  let backward := make_gotoh scoreMatrix reverseA reverseB in
  if negb (ScoreType_eqb (getOptimalScore forward) (getOptimalScore backward)) then None
  else
    let threshold := ssub (getOptimalScore forward) suboptimalDiff in
    let lenA := length seqA in
    let lenB := length seqB in
    Some (edge_loop forward backward scoreMatrix seqA seqB threshold edges,
          identityScore (getOptimalScore forward) lenA lenB).

End Edges.

(** ** Proof-side definitions *)

(** The matrices [t] hold the values of [cell] at every in-range cell that
    satisfies [P] (and have the size of [resize]). *)
Definition agree (sc : SeqScoreMatrix) (seqA seqB : list Rna5)
    (P : nat -> nat -> Prop) (t : Tables) : Prop :=
  let LA := length seqA in
  let LB := length seqB in
  length (tM t) = ((LA + 1) * (LB + 1))%nat /\
  length (tH t) = ((LA + 1) * (LB + 1))%nat /\
  length (tV t) = ((LA + 1) * (LB + 1))%nat /\
  forall x y, (x <= LA)%nat -> (y <= LB)%nat -> P x y ->
    get LB (tM t) x y = cM (cell sc seqA seqB x y) /\
    get LB (tH t) x y = cH (cell sc seqA seqB x y) /\
    get LB (tV t) x y = cV (cell sc seqA seqB x y).

(** The cells already written when the fill loop reaches [(a, b)]. *)
Definition filled (a b x y : nat) : Prop :=
  x = O \/ y = O \/ (x <= a)%nat \/ (x = S a /\ (y <= b)%nat).

(** The state an alignment ends in. *)
Fixpoint last_kind (prev : Kind) (cols : list Column) : Kind :=
  match cols with
  | [] => prev
  | c :: cs => last_kind (col_kind c) cs
  end.

(** The table whose entry bounds the alignments ending in state [k]. *)
Definition table_of (k : Kind) (c : Cell) : ScoreType :=
  match k with
  | KStart | KM => cM c
  | KH => cH c
  | KV => cV c
  end.

(** [cols] aligns the prefixes of lengths [a] and [b] with score [z]. *)
Definition achieves (sc : SeqScoreMatrix) (seqA seqB : list Rna5) (a b : nat)
    (cols : list Column) (z : Z) : Prop :=
  projA cols = firstn a seqA /\ projB cols = firstn b seqB /\ aln_score sc KStart cols = z.

(** The kind of the first column of [cols], [next] when it is empty. *)
Definition head_kind (cols : list Column) (next : Kind) : Kind :=
  match cols with [] => next | c :: _ => col_kind c end.

(** The affine score charged at the end of each gap run instead of at its
    start: each column is scored against the column after it. *)
Fixpoint escore (sc : SeqScoreMatrix) (cols : list Column) (next : Kind) : Z :=
  match cols with
  | [] => 0
  | c :: cs => col_score sc (head_kind cs next) c + escore sc cs next
  end.

(** 1 for the two gap states. *)
Definition gap_ind (k : Kind) : Z := match k with KH | KV => 1 | _ => 0 end.

(** 1 when a gap run in state [p] is closed by a column of kind [k]. *)
Definition closes (p k : Kind) : Z :=
  match p, k with
  | KH, KH | KV, KV => 0
  | KH, _ | KV, _ => 1
  | _, _ => 0
  end.

(** [cols] aligns [A[a]] with [B[b]] in a match/mismatch column. *)
Definition match_at (cols : list Column) (a b : nat) : Prop :=
  exists c1 c2 x y, cols = c1 ++ ColM x y :: c2 /\
    length (projA c1) = a /\ length (projB c1) = b.

(** The number of [true] cells of an edge vector. *)
Fixpoint count_true (e : list bool) : nat :=
  match e with
  | [] => O
  | true :: r => S (count_true r)
  | false :: r => count_true r
  end.

(** The configuration of the spec's concrete scenario: +2 for a match, -1
    for a mismatch, gap open -4, gap extend -1. *)
Definition cfg_example : SeqScoreMatrix :=
  mkScore (fun x y => if Rna5_eqb x y then 2 else -1) (-4) (-1).

Definition AAAA : list Rna5 := [rA; rA; rA; rA].

(** The score configuration with the substitution matrix transposed. *)
Definition transposeScore (sc : SeqScoreMatrix) : SeqScoreMatrix :=
  mkScore (fun x y => score_fn sc y x) (data_gap_open sc) (data_gap_extend sc).

(** An alignment column with the roles of the two sequences exchanged. *)
Definition tr_col (c : Column) : Column :=
  match c with ColM x y => ColM y x | ColH y => ColV y | ColV x => ColH x end.

Definition tr_kind (k : Kind) : Kind :=
  match k with KH => KV | KV => KH | k => k end.

(** [cols] aligns [A[0:a]] with [B[0:b]] and ends in state [k]. *)
Definition ends_in (A B : list Rna5) (a b : nat) (k : Kind) (cols : list Column) : Prop :=
  aligns cols (firstn a A) (firstn b B) /\ last_kind KStart cols = k.

(** [z] is the best score of the alignments of [A[0:a]] with [B[0:b]] that
    end in state [k]. *)
Definition best_in (sc : SeqScoreMatrix) (A B : list Rna5) (a b : nat) (k : Kind) (z : Z) : Prop :=
  (exists cols, ends_in A B a b k cols /\ alignment_score sc cols = z) /\
  (forall cols, ends_in A B a b k cols -> alignment_score sc cols <= z).

(** * Proofs *)

(** ** The flat matrix layout *)

Lemma idx_lt (LA LB x y : nat) :
  (x <= LA)%nat -> (y <= LB)%nat -> (idx LB x y < (LA + 1) * (LB + 1))%nat.
Proof. unfold idx. nia. Qed.

Lemma idx_inj (LB x y x' y' : nat) :
  (y <= LB)%nat -> (y' <= LB)%nat -> idx LB x y = idx LB x' y' -> x = x' /\ y = y'.
Proof.
  unfold idx. intros Hy Hy' E.
  destruct (Nat.lt_total x x') as [Hlt | [-> | Hlt]]; [nia | split; [reflexivity | lia] | nia].
Qed.

Lemma length_set (LB : nat) m x y v : length (set LB m x y v) = length m.
Proof. apply length_insert. Qed.

Lemma get_set_eq (LA LB : nat) m x y v :
  length m = ((LA + 1) * (LB + 1))%nat -> (x <= LA)%nat -> (y <= LB)%nat ->
  get LB (set LB m x y v) x y = v.
Proof.
  intros Hl Hx Hy. unfold get, set.
  rewrite list_lookup_insert_eq; [reflexivity |].
  rewrite Hl. apply idx_lt; assumption.
Qed.

Lemma get_set_ne (LB : nat) m x y x' y' v :
  (y <= LB)%nat -> (y' <= LB)%nat -> (x <> x' \/ y <> y') ->
  get LB (set LB m x y v) x' y' = get LB m x' y'.
Proof.
  intros Hy Hy' Hne. unfold get, set.
  rewrite list_lookup_insert_ne; [reflexivity |].
  intros E. apply idx_inj in E; [| assumption | assumption]. lia.
Qed.

(** ** The constructor computes [cell] *)

Section Refine.
Variable sc : SeqScoreMatrix.
Variables seqA seqB : list Rna5.

Abbreviation LA := (length seqA).
Abbreviation LB := (length seqB).
Abbreviation C := (cell sc seqA seqB).

Lemma cell_SS a b :
  C (S a) (S b) =
  mkCell (sadd (smax3 (cM (C a b)) (cH (C a b)) (cV (C a b)))
               (score sc (at_ seqA a) (at_ seqB b)))
         (smax3 (sadd (cM (C (S a) b)) (Fin (data_gap_open sc)))
                (sadd (cH (C (S a) b)) (Fin (data_gap_extend sc)))
                (sadd (cV (C (S a) b)) (Fin (data_gap_open sc))))
         (smax3 (sadd (cM (C a (S b))) (Fin (data_gap_open sc)))
                (sadd (cH (C a (S b))) (Fin (data_gap_open sc)))
                (sadd (cV (C a (S b))) (Fin (data_gap_extend sc)))).
Proof. reflexivity. Qed.

Lemma agree_weaken (P Q : nat -> nat -> Prop) t :
  (forall x y, (x <= LA)%nat -> (y <= LB)%nat -> Q x y -> P x y) ->
  agree sc seqA seqB P t -> agree sc seqA seqB Q t.
Proof.
  unfold agree. intros HPQ (H1 & H2 & H3 & H4).
  split; [assumption | split; [assumption | split; [assumption |]]].
  intros x y Hx Hy Hq. apply H4; auto.
Qed.

Lemma agree_write3 (P : nat -> nat -> Prop) t x0 y0 vM vH vV :
  agree sc seqA seqB P t -> (x0 <= LA)%nat -> (y0 <= LB)%nat ->
  vM = cM (C x0 y0) -> vH = cH (C x0 y0) -> vV = cV (C x0 y0) ->
  agree sc seqA seqB (fun x y => P x y \/ (x = x0 /\ y = y0))
    (mkTables (set LB (tM t) x0 y0 vM) (set LB (tH t) x0 y0 vH) (set LB (tV t) x0 y0 vV)).
Proof.
  unfold agree. intros (H1 & H2 & H3 & H4) Hx0 Hy0 -> -> ->. cbn.
  rewrite !length_set.
  split; [assumption | split; [assumption | split; [assumption |]]].
  intros x y Hx Hy HP.
  destruct (Nat.eq_dec x x0) as [-> | Hne]; [destruct (Nat.eq_dec y y0) as [-> | Hne] |].
  - rewrite !get_set_eq with (LA := LA) by assumption. auto.
  - rewrite !get_set_ne by (assumption || lia).
    destruct HP as [HP | [? ?]]; [apply H4; assumption | lia].
  - rewrite !get_set_ne by (assumption || lia).
    destruct HP as [HP | [? ?]]; [apply H4; assumption | lia].
Qed.

Lemma fold_left_seq_S {T : Type} (f : T -> nat -> T) k t :
  fold_left f (seq 0 (S k)) t = f (fold_left f (seq 0 k) t) k.
Proof. rewrite seq_S, fold_left_app. reflexivity. Qed.

Lemma agree_origin :
  agree sc seqA seqB (fun x y => x = O /\ y = O) (init_origin seqB (resized seqA seqB)).
Proof.
  unfold init_origin, resized.
  eapply agree_weaken; [| eapply agree_write3 with (P := fun _ _ => False)].
  - intros x y _ _ [-> ->]. right. split; reflexivity.
  - unfold agree. cbn. rewrite length_replicate.
    split; [reflexivity | split; [reflexivity | split; [reflexivity |]]].
    intros x y _ _ [].
  - lia.
  - lia.
  - reflexivity.
  - reflexivity.
  - reflexivity.
Qed.

Lemma agree_cols k :
  (k <= LA)%nat ->
  agree sc seqA seqB (fun x y => y = O /\ (x <= k)%nat)
    (fold_left (init_col_step sc seqB) (seq 0 k) (init_origin seqB (resized seqA seqB))).
Proof.
  induction k as [| k IH]; intros Hk.
  - eapply agree_weaken; [| apply agree_origin]. intros x y _ _ [-> ?]. lia.
  - rewrite fold_left_seq_S. unfold init_col_step.
    eapply agree_weaken; [| eapply agree_write3; [apply IH; lia | lia | lia | | |]].
    + intros x y _ _ [-> ?]. destruct (Nat.eq_dec x (S k)); [right | left]; lia.
    + reflexivity.
    + reflexivity.
    + reflexivity.
Qed.

Lemma agree_rows k :
  (k <= LB)%nat ->
  agree sc seqA seqB (fun x y => y = O \/ (x = O /\ (y <= k)%nat))
    (fold_left (init_row_step sc seqB) (seq 0 k)
       (fold_left (init_col_step sc seqB) (seq 0 LA) (init_origin seqB (resized seqA seqB)))).
Proof.
  induction k as [| k IH]; intros Hk.
  - eapply agree_weaken; [| apply agree_cols; lia]. cbn. intros x y Hx _ Hq. lia.
  - rewrite fold_left_seq_S. unfold init_row_step.
    eapply agree_weaken; [| eapply agree_write3; [apply IH; lia | lia | lia | | |]].
    + intros x y _ _ Hq. destruct (Nat.eq_dec y (S k)); [destruct (Nat.eq_dec x O) |]; lia.
    + reflexivity.
    + reflexivity.
    + reflexivity.
Qed.

Lemma agree_fill_row a k t :
  (a < LA)%nat -> (k <= LB)%nat -> agree sc seqA seqB (filled a 0) t ->
  agree sc seqA seqB (filled a k) (fold_left (fill_step sc seqA seqB a) (seq 0 k) t).
Proof.
  intros Ha. induction k as [| k IH]; intros Hk H0; [exact H0 |].
  rewrite fold_left_seq_S.
  specialize (IH ltac:(lia) H0).
  set (t' := fold_left (fill_step sc seqA seqB a) (seq 0 k) t) in *.
  pose proof IH as (H1 & H2 & H3 & Hd).
  unfold fill_step.
  eapply agree_weaken; [| eapply agree_write3; [exact IH | lia | lia | | |]].
  - unfold filled. intros x y _ _ Hq. lia.
  - rewrite cell_SS. cbn [cM].
    destruct (Hd a k) as (-> & -> & ->); [lia | lia | unfold filled; lia |]. reflexivity.
  - rewrite cell_SS. cbn [cH].
    rewrite get_set_ne by lia.
    destruct (Hd (S a) k) as (-> & -> & ->); [lia | lia | unfold filled; lia |]. reflexivity.
  - rewrite cell_SS. cbn [cV].
    rewrite !get_set_ne by lia.
    destruct (Hd a (S k)) as (-> & -> & ->); [lia | lia | unfold filled; lia |]. reflexivity.
Qed.

Lemma agree_build :
  agree sc seqA seqB (fun _ _ => True) (build_tables sc seqA seqB).
Proof.
  unfold build_tables. cbv zeta.
  assert (Hk : forall k, (k <= LA)%nat ->
    agree sc seqA seqB (filled k 0)
      (fold_left (fun t a => fold_left (fill_step sc seqA seqB a) (seq 0 LB) t) (seq 0 k)
        (fold_left (init_row_step sc seqB) (seq 0 LB)
          (fold_left (init_col_step sc seqB) (seq 0 LA) (init_origin seqB (resized seqA seqB)))))).
  { induction k as [| k IH]; intros Hk.
    - eapply agree_weaken; [| apply agree_rows; lia]. unfold filled. intros x y _ Hy Hq. lia.
    - rewrite fold_left_seq_S.
      eapply agree_weaken; [| apply agree_fill_row; [lia | lia | apply IH; lia]].
      unfold filled. intros x y _ Hy Hq. lia. }
  eapply agree_weaken; [| apply Hk; lia]. unfold filled. intros x y Hx _ _. lia.
Qed.

(** The matrices of the constructed object hold [cell] at every cell. *)
Lemma make_gotoh_cell x y :
  (x <= LA)%nat -> (y <= LB)%nat ->
  let g := make_gotoh sc seqA seqB in
  get (lenB g) (matrixM g) x y = cM (C x y) /\
  get (lenB g) (matrixH g) x y = cH (C x y) /\
  get (lenB g) (matrixV g) x y = cV (C x y).
Proof.
  intros Hx Hy. pose proof agree_build as (_ & _ & _ & H). apply H; auto.
Qed.

Lemma getPrefixScore_cell x y :
  (x <= LA)%nat -> (y <= LB)%nat ->
  getPrefixScore (make_gotoh sc seqA seqB) x y = smax3 (cM (C x y)) (cH (C x y)) (cV (C x y)).
Proof.
  intros Hx Hy. destruct (make_gotoh_cell x y Hx Hy) as (E1 & E2 & E3).
  unfold getPrefixScore. rewrite E1, E2, E3. reflexivity.
Qed.

End Refine.

(** ** Score arithmetic *)

(** Close a goal of integer comparisons stated with [>=?]. *)
Ltac zgeb :=
  repeat match goal with H : (_ >=? _) = true |- _ => apply Z.geb_le in H end;
  try apply Z.geb_le; lia.

Lemma sge_smax3_1 x y z v : sge x v = true -> sge (smax3 x y z) v = true.
Proof. destruct x, y, z, v; cbn; try lia; intros H; try discriminate; lia. Qed.

Lemma sge_smax3_2 x y z v : sge y v = true -> sge (smax3 x y z) v = true.
Proof. destruct x, y, z, v; cbn; try lia; intros H; try discriminate; lia. Qed.

Lemma sge_smax3_3 x y z v : sge z v = true -> sge (smax3 x y z) v = true.
Proof. destruct x, y, z, v; cbn; try lia; intros H; try discriminate; lia. Qed.

Lemma sge_sadd x s d : sge x (Fin s) = true -> sge (sadd x (Fin d)) (Fin (s + d)) = true.
Proof. destruct x; cbn; [discriminate | lia]. Qed.

Lemma sge_fin a b : sge (Fin a) (Fin b) = true <-> b <= a.
Proof. cbn. lia. Qed.

Lemma smax3_cases x y z r : smax3 x y z = Fin r -> x = Fin r \/ y = Fin r \/ z = Fin r.
Proof.
  destruct x as [| a], y as [| b], z as [| c]; cbn; intros H; try discriminate;
    injection H as <-;
    repeat match goal with
           | |- context [Z.max ?p ?q] => destruct (Z.max_spec p q) as [[_ ->] | [_ ->]]
           end; auto.
Qed.

Lemma sadd_fin_inv x d r : sadd x (Fin d) = Fin r -> x = Fin (r - d).
Proof. destruct x; cbn; intros H; inversion H; subst. f_equal. lia. Qed.

Lemma smax3_ge (x : ScoreType) : forall k (c : Cell), sge (table_of k c) x = true ->
  sge (smax3 (cM c) (cH c) (cV c)) x = true.
Proof.
  intros k c H. destruct k; cbn in H;
    [apply sge_smax3_1 | apply sge_smax3_1 | apply sge_smax3_2 | apply sge_smax3_3]; exact H.
Qed.

(** ** Alignments *)

Lemma projA_app l1 l2 : projA (l1 ++ l2) = projA l1 ++ projA l2.
Proof. induction l1 as [| [] l IH]; cbn; [reflexivity | | |]; rewrite ?IH; reflexivity. Qed.

Lemma projB_app l1 l2 : projB (l1 ++ l2) = projB l1 ++ projB l2.
Proof. induction l1 as [| [] l IH]; cbn; [reflexivity | | |]; rewrite ?IH; reflexivity. Qed.

Lemma aln_score_app sc p l1 l2 :
  aln_score sc p (l1 ++ l2) = aln_score sc p l1 + aln_score sc (last_kind p l1) l2.
Proof.
  revert p. induction l1 as [| c l IH]; intros p; cbn; [reflexivity |].
  rewrite IH. lia.
Qed.

Lemma last_kind_snoc p l c : last_kind p (l ++ [c]) = col_kind c.
Proof. revert p. induction l as [| d l IH]; intros p; cbn; auto. Qed.

Lemma firstn_S_at (A : list Rna5) i :
  (i < length A)%nat -> firstn (S i) A = firstn i A ++ [at_ A i].
Proof.
  unfold at_. revert i. induction A as [| x A IH]; intros i Hi; cbn in Hi; [lia |].
  destruct i as [| i]; [reflexivity |].
  change (firstn (S (S i)) (x :: A)) with (x :: firstn (S i) A).
  rewrite IH by lia. reflexivity.
Qed.

Lemma firstn_nil_le (A : list Rna5) i : (i <= length A)%nat -> firstn i A = [] -> i = O.
Proof. destruct i, A; cbn; intros; try discriminate; lia. Qed.

Lemma snoc_firstn (A : list Rna5) i l x :
  (i <= length A)%nat -> l ++ [x] = firstn i A ->
  exists i', i = S i' /\ l = firstn i' A /\ x = at_ A i'.
Proof.
  intros Hi E. destruct i as [| i'].
  - cbn in E. destruct l; discriminate.
  - exists i'. rewrite firstn_S_at in E by lia.
    apply app_inj_tail in E as [-> ->]. auto.
Qed.

(** An alignment is empty, or ends in a column. *)
Lemma cols_cases (l : list Column) : l = [] \/ exists l' c, l = l' ++ [c].
Proof.
  destruct l as [| c l] using rev_ind; [left; reflexivity | right; eauto].
Qed.

(** ** Soundness: every alignment of two prefixes scores at most the table
    entry of its final state *)

Section Sound.
Variable sc : SeqScoreMatrix.
Variables seqA seqB : list Rna5.
Abbreviation C := (cell sc seqA seqB).

Lemma cell_bound cols : forall i j,
  (i <= length seqA)%nat -> (j <= length seqB)%nat ->
  projA cols = firstn i seqA -> projB cols = firstn j seqB ->
  sge (table_of (last_kind KStart cols) (C i j)) (Fin (aln_score sc KStart cols)) = true.
Proof.
  induction cols as [| c cols IH] using rev_ind; intros i j Hi Hj EA EB.
  - cbn in *. symmetry in EA, EB.
    apply firstn_nil_le in EA; [| exact Hi]. apply firstn_nil_le in EB; [| exact Hj].
    subst. cbn. lia.
  - rewrite last_kind_snoc, aln_score_app.
    rewrite projA_app in EA. rewrite projB_app in EB.
    destruct c as [x y | y | x]; cbn in EA, EB |- *;
      rewrite ?app_nil_r in EA; rewrite ?app_nil_r in EB.
    + apply snoc_firstn in EA as (i' & -> & EA & ->); [| exact Hi].
      apply snoc_firstn in EB as (j' & -> & EB & ->); [| exact Hj].
      rewrite cell_SS. cbn [cM]. rewrite Z.add_0_r.
      apply sge_sadd. eapply smax3_ge. apply IH; auto; lia.
    + apply snoc_firstn in EB as (j' & -> & EB & ->); [| exact Hj].
      specialize (IH i j' Hi ltac:(lia) EA EB).
      destruct (cols_cases cols) as [-> | (l' & c' & ->)].
      * cbn in EA, EB |- *. symmetry in EA, EB.
        apply firstn_nil_le in EA; [| exact Hi]. apply firstn_nil_le in EB; [| lia]. subst.
        cbn. zgeb.
      * rewrite last_kind_snoc in IH |- *.
        rewrite projA_app in EA. rewrite projB_app in EB.
        destruct i as [| i'].
        -- destruct c' as [x' y' | y' | x']; cbn in EA, IH |- *;
             [destruct (projA l'); discriminate | | destruct (projA l'); discriminate].
           destruct j' as [| j'']; cbn in IH; [discriminate |]. zgeb.
        -- rewrite cell_SS. cbn [cH].
           destruct c' as [x' y' | y' | x']; cbn in IH |- *; rewrite Z.add_0_r.
           ++ apply sge_smax3_1, sge_sadd; exact IH.
           ++ apply sge_smax3_2, sge_sadd; exact IH.
           ++ apply sge_smax3_3, sge_sadd; exact IH.
    + apply snoc_firstn in EA as (i' & -> & EA & ->); [| exact Hi].
      specialize (IH i' j ltac:(lia) Hj EA EB).
      destruct (cols_cases cols) as [-> | (l' & c' & ->)].
      * cbn in EA, EB |- *. symmetry in EA, EB.
        apply firstn_nil_le in EA; [| lia]. apply firstn_nil_le in EB; [| exact Hj]. subst.
        cbn. zgeb.
      * rewrite last_kind_snoc in IH |- *.
        rewrite projA_app in EA. rewrite projB_app in EB.
        destruct j as [| j'].
        -- destruct c' as [x' y' | y' | x']; cbn in EB, IH |- *;
             [destruct (projB l'); discriminate | destruct (projB l'); discriminate |].
           destruct i' as [| i'']; cbn in IH; [discriminate |]. zgeb.
        -- rewrite cell_SS. cbn [cV].
           destruct c' as [x' y' | y' | x']; cbn in IH |- *; rewrite Z.add_0_r.
           ++ apply sge_smax3_1, sge_sadd; exact IH.
           ++ apply sge_smax3_2, sge_sadd; exact IH.
           ++ apply sge_smax3_3, sge_sadd; exact IH.
Qed.

End Sound.

(** ** Completeness: every finite table entry is the score of an alignment
    of the two prefixes ending in the entry's state *)

Lemma projA_mapH l : projA (map ColH l) = [].
Proof. induction l; cbn; auto. Qed.

Lemma projB_mapH l : projB (map ColH l) = l.
Proof. induction l; cbn; f_equal; auto. Qed.

Lemma projA_mapV l : projA (map ColV l) = l.
Proof. induction l; cbn; f_equal; auto. Qed.

Lemma projB_mapV l : projB (map ColV l) = [].
Proof. induction l; cbn; auto. Qed.

Lemma score_runH sc l : aln_score sc KH (map ColH l) = data_gap_extend sc * Z.of_nat (length l).
Proof. induction l as [| y l IH]; cbn [map aln_score length col_kind]; [lia |]. rewrite IH. cbn. lia. Qed.

Lemma score_runV sc l : aln_score sc KV (map ColV l) = data_gap_extend sc * Z.of_nat (length l).
Proof. induction l as [| y l IH]; cbn [map aln_score length col_kind]; [lia |]. rewrite IH. cbn. lia. Qed.

Lemma last_kind_runH p y l : last_kind p (map ColH (y :: l)) = KH.
Proof. revert y. induction l as [| y' l IH]; intros y; cbn; auto. apply (IH y'). Qed.

Lemma last_kind_runV p x l : last_kind p (map ColV (x :: l)) = KV.
Proof. revert x. induction l as [| x' l IH]; intros x; cbn; auto. apply (IH x'). Qed.

Lemma firstn_S_cons (A : list Rna5) n :
  (S n <= length A)%nat -> exists y l, firstn (S n) A = y :: l /\ length l = n.
Proof.
  destruct A as [| y A]; cbn; intros H; [lia |].
  exists y, (firstn n A). split; [reflexivity |]. rewrite length_firstn. lia.
Qed.

Section Complete.
Variable sc : SeqScoreMatrix.
Variables seqA seqB : list Rna5.
Abbreviation C := (cell sc seqA seqB).
Abbreviation go := (data_gap_open sc).
Abbreviation ge := (data_gap_extend sc).

(** Extending a witness by one column. *)
Lemma achieves_snocM a b cols z :
  achieves sc seqA seqB a b cols z -> (a < length seqA)%nat -> (b < length seqB)%nat ->
  achieves sc seqA seqB (S a) (S b) (cols ++ [ColM (at_ seqA a) (at_ seqB b)])
    (z + score_fn sc (at_ seqA a) (at_ seqB b)).
Proof.
  intros (EA & EB & ES) Ha Hb. unfold achieves.
  rewrite projA_app, projB_app, aln_score_app, EA, EB, ES, !firstn_S_at by assumption.
  cbn. repeat split. lia.
Qed.

Lemma achieves_snocH a b cols z :
  achieves sc seqA seqB a b cols z -> (b < length seqB)%nat ->
  achieves sc seqA seqB a (S b) (cols ++ [ColH (at_ seqB b)])
    (z + col_score sc (last_kind KStart cols) (ColH (at_ seqB b))).
Proof.
  intros (EA & EB & ES) Hb. unfold achieves.
  rewrite projA_app, projB_app, aln_score_app, EA, EB, ES, !firstn_S_at by assumption.
  cbn. rewrite app_nil_r. repeat split. lia.
Qed.

Lemma achieves_snocV a b cols z :
  achieves sc seqA seqB a b cols z -> (a < length seqA)%nat ->
  achieves sc seqA seqB (S a) b (cols ++ [ColV (at_ seqA a)])
    (z + col_score sc (last_kind KStart cols) (ColV (at_ seqA a))).
Proof.
  intros (EA & EB & ES) Ha. unfold achieves.
  rewrite projA_app, projB_app, aln_score_app, EA, EB, ES, !firstn_S_at by assumption.
  cbn. rewrite app_nil_r. repeat split. lia.
Qed.

Lemma col_scoreH_open k y : k <> KH -> col_score sc k (ColH y) = go.
Proof. destruct k; cbn; congruence. Qed.

Lemma col_scoreV_open k x : k <> KV -> col_score sc k (ColV x) = go.
Proof. destruct k; cbn; congruence. Qed.

Lemma col_scoreH_ext k y : k = KH -> col_score sc k (ColH y) = ge.
Proof. intros ->. reflexivity. Qed.

Lemma col_scoreV_ext k x : k = KV -> col_score sc k (ColV x) = ge.
Proof. intros ->. reflexivity. Qed.

Lemma cell_witness a : (a <= length seqA)%nat -> forall b, (b <= length seqB)%nat ->
  (forall z, cM (C a b) = Fin z -> exists cols, achieves sc seqA seqB a b cols z /\
      ((1 <= a)%nat -> last_kind KStart cols <> KH) /\
      ((1 <= b)%nat -> last_kind KStart cols <> KV)) /\
  (forall z, cH (C a b) = Fin z -> exists cols, achieves sc seqA seqB a b cols z /\
      last_kind KStart cols = KH) /\
  (forall z, cV (C a b) = Fin z -> exists cols, achieves sc seqA seqB a b cols z /\
      last_kind KStart cols = KV).
Proof.
  induction a as [| a IHa]; intros Ha b Hb.
  - destruct b as [| b].
    + cbn. split; [| split; intros z E; discriminate].
      intros z E. injection E as <-. exists []. unfold achieves. cbn. repeat split; lia.
    + destruct (firstn_S_cons seqB b Hb) as (y & l & Ey & Hl).
      assert (W : achieves sc seqA seqB 0 (S b) (map ColH (y :: l)) (go + ge * Z.of_nat b)).
      { unfold achieves. rewrite projA_mapH, projB_mapH, Ey. cbn [firstn].
        split; [reflexivity | split; [reflexivity |]].
        cbn [map aln_score col_score Kind_eqb col_kind]. rewrite score_runH, Hl. lia. }
      split; [| split]; intros z E; cbn in E; try discriminate; injection E as <-;
        exists (map ColH (y :: l)); rewrite last_kind_runH;
        (split; [exact W |]); try reflexivity; split; intros; [lia | discriminate].
  - induction b as [| b IHb]; intros.
    + destruct (firstn_S_cons seqA a Ha) as (x & l & Ex & Hl).
      assert (W : achieves sc seqA seqB (S a) 0 (map ColV (x :: l)) (go + ge * Z.of_nat a)).
      { unfold achieves. rewrite projA_mapV, projB_mapV, Ex. cbn [firstn].
        split; [reflexivity | split; [reflexivity |]].
        cbn [map aln_score col_score Kind_eqb col_kind]. rewrite score_runV, Hl. lia. }
      split; [| split]; intros z E; cbn in E; try discriminate; injection E as <-;
        exists (map ColV (x :: l)); rewrite last_kind_runV;
        (split; [exact W |]); try reflexivity; split; intros; [discriminate | lia].
    + specialize (IHb ltac:(lia)).
      destruct (IHa ltac:(lia) b ltac:(lia)) as (Md & Hd & Vd).
      destruct (IHa ltac:(lia) (S b) Hb) as (Mu & Hu & Vu).
      destruct IHb as (Ml & Hl & Vl).
      rewrite cell_SS. cbn [cM cH cV].
      split; [| split].
      * intros z E. apply sadd_fin_inv in E. apply smax3_cases in E as [E | [E | E]];
          [destruct (Md _ E) as (cols & W & _) | destruct (Hd _ E) as (cols & W & _)
          | destruct (Vd _ E) as (cols & W & _)];
          exists (cols ++ [ColM (at_ seqA a) (at_ seqB b)]);
          rewrite last_kind_snoc; cbn [col_kind];
          (split; [| split; intros; discriminate]);
          replace z with (z - score_fn sc (at_ seqA a) (at_ seqB b)
                          + score_fn sc (at_ seqA a) (at_ seqB b)) by lia;
          (apply achieves_snocM; [exact W | lia | lia]).
      * intros z E. apply smax3_cases in E as [E | [E | E]]; apply sadd_fin_inv in E;
          [destruct (Ml _ E) as (cols & W & K & _) | destruct (Hl _ E) as (cols & W & K)
          | destruct (Vl _ E) as (cols & W & K)];
          exists (cols ++ [ColH (at_ seqB b)]);
          rewrite last_kind_snoc; (split; [| reflexivity]).
        -- replace z with ((z - go) + col_score sc (last_kind KStart cols) (ColH (at_ seqB b)))
             by (rewrite col_scoreH_open by (apply K; lia); lia).
           apply achieves_snocH; [exact W | lia].
        -- replace z with ((z - ge) + col_score sc (last_kind KStart cols) (ColH (at_ seqB b)))
             by (rewrite col_scoreH_ext by exact K; lia).
           apply achieves_snocH; [exact W | lia].
        -- replace z with ((z - go) + col_score sc (last_kind KStart cols) (ColH (at_ seqB b)))
             by (rewrite col_scoreH_open by (rewrite K; discriminate); lia).
           apply achieves_snocH; [exact W | lia].
      * intros z E. apply smax3_cases in E as [E | [E | E]]; apply sadd_fin_inv in E;
          [destruct (Mu _ E) as (cols & W & _ & K) | destruct (Hu _ E) as (cols & W & K)
          | destruct (Vu _ E) as (cols & W & K)];
          exists (cols ++ [ColV (at_ seqA a)]);
          rewrite last_kind_snoc; (split; [| reflexivity]).
        -- replace z with ((z - go) + col_score sc (last_kind KStart cols) (ColV (at_ seqA a)))
             by (rewrite col_scoreV_open by (apply K; lia); lia).
           apply achieves_snocV; [exact W | lia].
        -- replace z with ((z - go) + col_score sc (last_kind KStart cols) (ColV (at_ seqA a)))
             by (rewrite col_scoreV_open by (rewrite K; discriminate); lia).
           apply achieves_snocV; [exact W | lia].
        -- replace z with ((z - ge) + col_score sc (last_kind KStart cols) (ColV (at_ seqA a)))
             by (rewrite col_scoreV_ext by exact K; lia).
           apply achieves_snocV; [exact W | lia].
Qed.

End Complete.

(** ** Finiteness of the tables *)

Lemma smax3_fin_1 z y w : exists r, smax3 (Fin z) y w = Fin r.
Proof. destruct y, w; cbn; eauto. Qed.

Section Finite.
Variable sc : SeqScoreMatrix.
Variables seqA seqB : list Rna5.
Abbreviation C := (cell sc seqA seqB).

Lemma cellM_fin a b : exists z, cM (C a b) = Fin z.
Proof.
  revert b. induction a as [| a IHa]; intros b.
  - destruct b; cbn; eauto.
  - induction b as [| b IHb]; [cbn; eauto |].
    rewrite cell_SS. cbn [cM]. destruct (IHa b) as (z & ->).
    destruct (smax3_fin_1 z (cH (C a b)) (cV (C a b))) as (r & ->). cbn. eauto.
Qed.

Lemma cellH_fin a b : exists z, cH (C a (S b)) = Fin z.
Proof.
  destruct a as [| a]; [cbn; eauto |].
  rewrite cell_SS. cbn [cH]. destruct (cellM_fin (S a) b) as (z & ->). cbn [sadd].
  apply smax3_fin_1.
Qed.

Lemma cellV_fin a b : exists z, cV (C (S a) b) = Fin z.
Proof.
  destruct b as [| b]; [cbn; eauto |].
  rewrite cell_SS. cbn [cV]. destruct (cellM_fin a (S b)) as (z & ->). cbn [sadd].
  apply smax3_fin_1.
Qed.

Lemma cellH_zero a : cH (C a 0) = NegInf.
Proof. destruct a; reflexivity. Qed.

Lemma cellV_zero b : cV (C 0 b) = NegInf.
Proof. destruct b; reflexivity. Qed.

Lemma prefix_fin a b : exists z, smax3 (cM (C a b)) (cH (C a b)) (cV (C a b)) = Fin z.
Proof. destruct (cellM_fin a b) as (z & ->). apply smax3_fin_1. Qed.

(** The best alignment score of two prefixes is the maximum of the cell. *)
Lemma cell_optimal i j :
  (i <= length seqA)%nat -> (j <= length seqB)%nat ->
  exists z, smax3 (cM (C i j)) (cH (C i j)) (cV (C i j)) = Fin z /\
    (forall cols, aligns cols (firstn i seqA) (firstn j seqB) -> alignment_score sc cols <= z) /\
    (exists cols, aligns cols (firstn i seqA) (firstn j seqB) /\ alignment_score sc cols = z).
Proof.
  intros Hi Hj. destruct (prefix_fin i j) as (z & Ez). exists z. split; [exact Ez | split].
  - intros cols (EA & EB). apply sge_fin. rewrite <- Ez.
    eapply smax3_ge. apply cell_bound; assumption.
  - destruct (cell_witness sc seqA seqB i Hi j Hj) as (Wm & Wh & Wv).
    apply smax3_cases in Ez as [E | [E | E]];
      [destruct (Wm _ E) as (cols & (EA & EB & ES) & _)
      | destruct (Wh _ E) as (cols & (EA & EB & ES) & _)
      | destruct (Wv _ E) as (cols & (EA & EB & ES) & _)];
      exists cols; split; [split; assumption | exact ES | split; assumption | exact ES
                          | split; assumption | exact ES].
Qed.

End Finite.

(** ** Reversal of alignments *)

Lemma projA_rev l : projA (rev l) = rev (projA l).
Proof. induction l as [| [] l IH]; cbn; rewrite ?projA_app, ?IH; cbn; rewrite ?app_nil_r; reflexivity. Qed.

Lemma projB_rev l : projB (rev l) = rev (projB l).
Proof. induction l as [| [] l IH]; cbn; rewrite ?projB_app, ?IH; cbn; rewrite ?app_nil_r; reflexivity. Qed.

Lemma last_kind_rev q l : last_kind q (rev l) = head_kind l q.
Proof. destruct l as [| c l]; [reflexivity |]. cbn. apply last_kind_snoc. Qed.

Lemma aln_score_rev sc q l : aln_score sc q (rev l) = escore sc l q.
Proof.
  induction l as [| c l IH]; [reflexivity |].
  cbn [rev escore]. rewrite aln_score_app, IH, last_kind_rev. cbn. lia.
Qed.

Lemma aln_score_escore sc p l :
  aln_score sc p l + gap_ind p * (data_gap_open sc - data_gap_extend sc) =
  closes p (head_kind l KStart) * (data_gap_open sc - data_gap_extend sc) + escore sc l KStart.
Proof.
  revert p. induction l as [| c l IH]; intros p.
  - destruct p; cbn; lia.
  - specialize (IH (col_kind c)). cbn [aln_score escore head_kind].
    destruct (head_kind l KStart), c, p; cbn in IH |- *; lia.
Qed.

(** An alignment and its reversal have the same score. *)
Lemma alignment_score_rev sc l : alignment_score sc (rev l) = alignment_score sc l.
Proof.
  unfold alignment_score. rewrite aln_score_rev.
  pose proof (aln_score_escore sc KStart l) as E. cbn in E. lia.
Qed.

Lemma aligns_rev cols A B : aligns cols A B -> aligns (rev cols) (rev A) (rev B).
Proof. intros (EA & EB). split; [rewrite projA_rev, EA | rewrite projB_rev, EB]; reflexivity. Qed.

(** ** Optimal scores *)

Lemma optimal_full sc A B :
  exists z, getOptimalScore (make_gotoh sc A B) = Fin z /\
    (forall cols, aligns cols A B -> alignment_score sc cols <= z) /\
    (exists cols, aligns cols A B /\ alignment_score sc cols = z).
Proof.
  unfold getOptimalScore. cbn [lenA lenB make_gotoh].
  rewrite getPrefixScore_cell by lia.
  destruct (cell_optimal sc A B (length A) (length B) ltac:(lia) ltac:(lia)) as (z & E & Hs & Hw).
  rewrite !firstn_all in Hs, Hw. eauto.
Qed.

Lemma optimal_rev sc A B :
  getOptimalScore (make_gotoh sc A B) = getOptimalScore (make_gotoh sc (rev A) (rev B)).
Proof.
  destruct (optimal_full sc A B) as (z1 & E1 & S1 & (c1 & A1 & W1)).
  destruct (optimal_full sc (rev A) (rev B)) as (z2 & E2 & S2 & (c2 & A2 & W2)).
  rewrite E1, E2. f_equal.
  assert (z1 <= z2).
  { rewrite <- W1, <- alignment_score_rev. apply S2, aligns_rev, A1. }
  assert (z2 <= z1).
  { rewrite <- W2, <- alignment_score_rev. apply S1.
    rewrite <- (rev_involutive A), <- (rev_involutive B). apply aligns_rev, A2. }
  lia.
Qed.

Lemma generateEdges_some f e0 A B sc m :
  generateEdges f e0 A B sc m =
  Some (edge_loop (make_gotoh sc A B) (make_gotoh sc (rev A) (rev B)) sc A B
          (ssub (getOptimalScore (make_gotoh sc A B)) m) e0,
        identityScore f (getOptimalScore (make_gotoh sc A B)) (length A) (length B)).
Proof.
  unfold generateEdges. rewrite <- optimal_rev.
  destruct (optimal_full sc A B) as (z & -> & _).
  cbn [ScoreType_eqb]. rewrite Z.eqb_refl. reflexivity.
Qed.

(** ** The edge loop *)

(** A fold whose body only turns cells to [true]. *)
Lemma fold_grow {X : Type} (g : X -> list bool -> list bool) (Q : X -> nat -> Prop) :
  (forall x e, length (g x e) = length e) ->
  (forall x e i, g x e !! i = Some true <-> e !! i = Some true \/ ((i < length e)%nat /\ Q x i)) ->
  forall xs e0,
    length (fold_left (fun e x => g x e) xs e0) = length e0 /\
    (forall i, fold_left (fun e x => g x e) xs e0 !! i = Some true <->
               e0 !! i = Some true \/ ((i < length e0)%nat /\ exists x, In x xs /\ Q x i)).
Proof.
  intros Hl Hg xs. induction xs as [| x xs IH]; intros e0; cbn.
  - split; [reflexivity |]. intros i. split; [tauto |]. intros [H | (_ & _ & [] & _)]. exact H.
  - destruct (IH (g x e0)) as (L & E). rewrite Hl in L. split; [exact L |].
    intros i. rewrite E, Hg, Hl. split.
    + intros [[H | [Hi Hq]] | [Hi (y & Hy & Hq)]]; auto; right; split; eauto.
    + intros [H | [Hi (y & [<- | Hy] & Hq)]]; auto; right; split; eauto.
Qed.

Lemma insert_true_grow (e : list bool) (P : bool) (k i : nat) :
  (if P then <[k := true]> e else e) !! i = Some true <->
  e !! i = Some true \/ ((i < length e)%nat /\ (P = true /\ k = i)).
Proof.
  destruct P.
  - rewrite list_lookup_insert. split.
    + case_decide as D; [destruct D as (<- & Hk) | tauto]. intros _. right. auto.
    + intros [H | (Hi & _ & <-)].
      * case_decide as D; [reflexivity | exact H].
      * rewrite decide_True by auto. reflexivity.
  - split; [tauto |]. intros [H | (_ & H & _)]; [exact H | discriminate].
Qed.

Section EdgeLoop.
Variables forward backward : PairwiseGotoh.
Variable sc : SeqScoreMatrix.
Variables seqA seqB : list Rna5.
Variable threshold : ScoreType.
Abbreviation test := (edge_test forward backward sc seqA seqB threshold).
Abbreviation LA := (length seqA).
Abbreviation LB := (length seqB).

Lemma edge_loop_spec e0 :
  length (edge_loop forward backward sc seqA seqB threshold e0) = length e0 /\
  forall i, edge_loop forward backward sc seqA seqB threshold e0 !! i = Some true <->
    e0 !! i = Some true \/
    ((i < length e0)%nat /\ exists a b, (a < LA)%nat /\ (b < LB)%nat /\
                                     test a b = true /\ (LB * a + b)%nat = i).
Proof.
  unfold edge_loop.
  pose (inner := fun a (e : list bool) => fold_left (fun (e : list bool) b => if test a b then <[(LB * a + b)%nat := true]> e else e)
                              (seq 0 LB) e).
  assert (Hin : forall a e, length (inner a e) = length e /\
    (forall i, inner a e !! i = Some true <-> e !! i = Some true \/
       ((i < length e)%nat /\ exists b, In b (seq 0 LB) /\ (test a b = true /\ (LB * a + b)%nat = i)))).
  { intros a e. unfold inner.
    apply (fold_grow (fun b (e : list bool) => if test a b then <[(LB * a + b)%nat := true]> e else e)
                     (fun b i => test a b = true /\ (LB * a + b)%nat = i)).
    - intros b e'. destruct (test a b); [apply length_insert | reflexivity].
    - intros b e' i. apply insert_true_grow. }
  destruct (fold_grow inner (fun a i => exists b, In b (seq 0 LB) /\ (test a b = true /\ (LB * a + b)%nat = i))
              (fun a e => proj1 (Hin a e)) (fun a e => proj2 (Hin a e)) (seq 0 LA) e0) as (L & E).
  split; [exact L |]. intros i. unfold inner in E. rewrite E.
  split; (intros [H | (Hi & H)]; [left; exact H | right; split; [exact Hi |]]).
  - destruct H as (a & Ha & b & Hb & T & <-). apply in_seq in Ha, Hb.
    exists a, b. repeat split; auto; lia.
  - destruct H as (a & b & Ha & Hb & T & <-). exists a. split; [apply in_seq; lia |].
    exists b. split; [apply in_seq; lia | auto].
Qed.

End EdgeLoop.

(** ** Helpers for the claims *)

Lemma grid_inj (LB a b a' b' : nat) :
  (b < LB)%nat -> (b' < LB)%nat -> (LB * a + b = LB * a' + b')%nat -> a = a' /\ b = b'.
Proof.
  intros Hb Hb' E.
  destruct (Nat.lt_total a a') as [Hlt | [-> | Hlt]]; [nia | split; [reflexivity | lia] | nia].
Qed.

Lemma aln_score_KM sc l : aln_score sc KM l = aln_score sc KStart l.
Proof. destruct l as [| [] l]; reflexivity. Qed.

Lemma count_insert_true (e : list bool) i : (count_true (<[i := true]> e) <= S (count_true e))%nat.
Proof.
  revert i. induction e as [| v e IH]; intros [| i].
  - cbn. lia.
  - cbn. lia.
  - destruct v; cbn; lia.
  - specialize (IH i).
    change (<[S i := true]> (v :: e)) with (v :: <[i := true]> e).
    destruct v; cbn [count_true]; lia.
Qed.

Lemma fold_count {X : Type} (g : X -> list bool -> list bool) (k : nat) :
  (forall x e, (count_true (g x e) <= count_true e + k)%nat) ->
  forall xs e0, (count_true (fold_left (fun e x => g x e) xs e0) <= count_true e0 + k * length xs)%nat.
Proof.
  intros Hg xs. induction xs as [| x xs IH]; intros e0; cbn; [lia |].
  specialize (IH (g x e0)). specialize (Hg x e0). nia.
Qed.

Lemma edge_loop_count fw bw sc A B thr e0 :
  (count_true (edge_loop fw bw sc A B thr e0) <= count_true e0 + length A * length B)%nat.
Proof.
  unfold edge_loop.
  assert (Hrow : forall a e, (count_true (fold_left
     (fun (e : list bool) b => if edge_test fw bw sc A B thr a b then <[(length B * a + b)%nat := true]> e else e)
     (seq 0 (length B)) e) <= count_true e + length B)%nat).
  { intros a e.
    pose proof (fold_count (fun b (e : list bool) =>
       if edge_test fw bw sc A B thr a b then <[(length B * a + b)%nat := true]> e else e) 1) as H.
    eapply Nat.le_trans; [apply H |].
    - intros b e'. destruct (edge_test fw bw sc A B thr a b);
      [pose proof (count_insert_true e' (length B * a + b)) |]; lia.
    - rewrite length_seq. lia. }
  pose proof (fold_count (fun a (e : list bool) => fold_left
     (fun (e : list bool) b => if edge_test fw bw sc A B thr a b then <[(length B * a + b)%nat := true]> e else e)
     (seq 0 (length B)) e) (length B) Hrow (seq 0 (length A)) e0) as H.
  rewrite length_seq in H. rewrite Nat.mul_comm in H. exact H.
Qed.

Lemma fold_left_id {X Y : Type} (xs : list X) (y : Y) : fold_left (fun e _ => e) xs y = y.
Proof. revert y. induction xs; cbn; auto. Qed.

Lemma prefix_optimal sc A B i j : (i <= length A)%nat -> (j <= length B)%nat ->
  exists z, getPrefixScore (make_gotoh sc A B) i j = Fin z /\
    (forall cols, aligns cols (firstn i A) (firstn j B) -> alignment_score sc cols <= z) /\
    (exists cols, aligns cols (firstn i A) (firstn j B) /\ alignment_score sc cols = z).
Proof. intros Hi Hj. rewrite (getPrefixScore_cell sc A B i j Hi Hj). apply cell_optimal; assumption. Qed.

(** A match column of a full alignment splits it into an alignment of the
    prefixes before it and, reversed, of the reversed suffixes after it. *)
Lemma match_split cols A B a b : aligns cols A B -> match_at cols a b ->
  exists c1 c2 x y, cols = c1 ++ ColM x y :: c2 /\ (a < length A)%nat /\ (b < length B)%nat /\
    at_ A a = x /\ at_ B b = y /\ aligns c1 (firstn a A) (firstn b B) /\
    aligns (rev c2) (firstn (length A - a - 1) (rev A)) (firstn (length B - b - 1) (rev B)).
Proof.
  intros [EA EB] (c1 & c2 & x & y & -> & La & Lb).
  rewrite projA_app in EA. rewrite projB_app in EB. cbn [projA projB] in EA, EB.
  subst A B a b. exists c1, c2, x, y. rewrite !length_app. cbn [length].
  split; [reflexivity |]. split; [lia |]. split; [lia |].
  split; [apply nth_middle |]. split; [apply nth_middle |].
  split; unfold aligns; split.
  - symmetry. apply take_app_length.
  - symmetry. apply take_app_length.
  - rewrite projA_rev, rev_app_distr. cbn [rev]. rewrite <- app_assoc.
    replace (length (projA c1) + S (length (projA c2)) - length (projA c1) - 1)%nat
      with (length (rev (projA c2))) by (rewrite length_rev; lia).
    symmetry. apply take_app_length.
  - rewrite projB_rev, rev_app_distr. cbn [rev]. rewrite <- app_assoc.
    replace (length (projB c1) + S (length (projB c2)) - length (projB c1) - 1)%nat
      with (length (rev (projB c2))) by (rewrite length_rev; lia).
    symmetry. apply take_app_length.
Qed.

Lemma sge_ssub_mono x o m1 m2 : m1 <= m2 -> sge x (ssub o m1) = true -> sge x (ssub o m2) = true.
Proof. destruct x, o; cbn; intros; try discriminate; try reflexivity; zgeb. Qed.

Lemma edge_test_mono fw bw sc A B o m1 m2 a b : m1 <= m2 ->
  edge_test fw bw sc A B (ssub o m1) a b = true -> edge_test fw bw sc A B (ssub o m2) a b = true.
Proof. unfold edge_test. apply sge_ssub_mono. Qed.

Lemma getOptimalScore_fin sc A B : exists z, getOptimalScore (make_gotoh sc A B) = Fin z.
Proof. destruct (optimal_full sc A B) as (z & E & _). eauto. Qed.

(** * The claims *)

(** C1: over-approximation.  If a full alignment [cols] of [A] and [B] scores
    at least [optimal - m], every residue pair [(a, b)] that [cols] aligns in
    a match/mismatch column is set in the edge vector [generateEdges] returns
    (for an edge vector of the grid's size). *)
Theorem generateEdges_overapprox f e0 A B sc m cols a b
  (Hlen : length e0 = (length A * length B)%nat)
  (Hal : aligns cols A B) (Hm : match_at cols a b)
  (Hs : sge (Fin (alignment_score sc cols)) (ssub (getOptimalScore (make_gotoh sc A B)) m) = true) :
  exists edges id, generateEdges f e0 A B sc m = Some (edges, id) /\
    edges !! (length B * a + b)%nat = Some true.
Proof.
  destruct (match_split cols A B a b Hal Hm)
    as (c1 & c2 & x & y & Ec & Ha & Hb & Ex & Ey & Al1 & Al2).
  destruct (prefix_optimal sc A B a b) as (z1 & P1 & U1 & _); [lia | lia |].
  destruct (prefix_optimal sc (rev A) (rev B) (length A - a - 1) (length B - b - 1))
    as (z2 & P2 & U2 & _); [rewrite length_rev; lia | rewrite length_rev; lia |].
  destruct (optimal_full sc A B) as (zo & O & _).
  specialize (U1 c1 Al1). specialize (U2 (rev c2) Al2). rewrite alignment_score_rev in U2.
  assert (Esc : alignment_score sc cols =
                alignment_score sc c1 + score_fn sc x y + alignment_score sc c2).
  { subst cols. unfold alignment_score. rewrite aln_score_app.
    cbn [aln_score col_score col_kind]. rewrite aln_score_KM. lia. }
  rewrite O in Hs. cbn [ssub sge] in Hs.
  rewrite generateEdges_some. eexists _, _. split; [reflexivity |].
  apply (proj2 (edge_loop_spec _ _ _ _ _ _ e0) _). right. split; [nia |].
  exists a, b. split; [lia | split; [lia | split; [| reflexivity]]].
  unfold edge_test. cbv zeta. rewrite P1, P2, O, Ex, Ey. cbn [score sadd ssub sge]. zgeb.
Qed.

Lemma generateEdges_overapprox_witness :
  length [false] = (length [rA] * length [rA])%nat /\
  aligns [ColM rA rA] [rA] [rA] /\ match_at [ColM rA rA] 0 0 /\
  sge (Fin (alignment_score cfg_example [ColM rA rA]))
      (ssub (getOptimalScore (make_gotoh cfg_example [rA] [rA])) 0) = true /\
  exists edges id, generateEdges 1 [false] [rA] [rA] cfg_example 0 = Some (edges, id) /\
    edges !! 0%nat = Some true.
Proof.
  assert (Hal : aligns [ColM rA rA] [rA] [rA]) by (split; reflexivity).
  assert (Hm : match_at [ColM rA rA] 0 0) by (exists [], [], rA, rA; split; [reflexivity | split; reflexivity]).
  assert (Hs : sge (Fin (alignment_score cfg_example [ColM rA rA]))
                   (ssub (getOptimalScore (make_gotoh cfg_example [rA] [rA])) 0) = true)
    by (vm_compute; reflexivity).
  split; [reflexivity |]. split; [exact Hal |]. split; [exact Hm |]. split; [exact Hs |].
  exact (generateEdges_overapprox 1 [false] [rA] [rA] cfg_example 0 [ColM rA rA] 0 0
           eq_refl Hal Hm Hs).
Defined.

(** C2: the edge-inclusion rule.  For [a < lenA] and [b < lenB], cell
    [lenB * a + b] of the returned edge vector is true exactly when it was
    true on entry or [forward.getPrefixScore(a, b) + score(A[a], B[b]) +
    backward.getPrefixScore(lenA - a - 1, lenB - b - 1)] reaches
    [forward.getOptimalScore() - m]; on an all-false vector, exactly when the
    sum reaches the threshold. *)
Theorem generateEdges_edge_iff f e0 A B sc m a b
  (Ha : (a < length A)%nat) (Hb : (b < length B)%nat)
  (Hlen : length e0 = (length A * length B)%nat) :
  let forward := make_gotoh sc A B in
  let backward := make_gotoh sc (rev A) (rev B) in
  let cond := sge (sadd (sadd (getPrefixScore forward a b) (score sc (at_ A a) (at_ B b)))
                        (getPrefixScore backward (length A - a - 1) (length B - b - 1)))
                  (ssub (getOptimalScore forward) m) = true in
  exists edges id, generateEdges f e0 A B sc m = Some (edges, id) /\
    (edges !! (length B * a + b)%nat = Some true <->
       e0 !! (length B * a + b)%nat = Some true \/ cond) /\
    ((forall i, e0 !! i <> Some true) -> (edges !! (length B * a + b)%nat = Some true <-> cond)).
Proof.
  intros forward backward cond.
  rewrite generateEdges_some. eexists _, _. split; [reflexivity |].
  destruct (edge_loop_spec forward backward sc A B (ssub (getOptimalScore forward) m) e0)
    as (_ & Hs).
  assert (Hiff : edge_loop forward backward sc A B (ssub (getOptimalScore forward) m) e0
                   !! (length B * a + b)%nat = Some true <->
                 e0 !! (length B * a + b)%nat = Some true \/ cond).
  { split.
    - intros H. apply Hs in H.
      destruct H as [H | (_ & a' & b' & Ha' & Hb' & T & E)]; [left; exact H | right].
      destruct (grid_inj (length B) a' b' a b Hb' Hb E) as (-> & ->). exact T.
    - intros H. apply Hs. destruct H as [H | H]; [left; exact H | right]. split; [nia |].
      exists a, b. split; [lia | split; [lia | split; [exact H | reflexivity]]]. }
  split; [exact Hiff |]. intros H0. split.
  - intros H. apply Hiff in H. destruct H as [H | H]; [exfalso; exact (H0 _ H) | exact H].
  - intros H. apply Hiff. right. exact H.
Qed.

Lemma generateEdges_edge_iff_witness :
  (0 < length [rA; rC])%nat /\ (0 < length [rA])%nat /\
  length (replicate 2 false) = (length [rA; rC] * length [rA])%nat /\
  exists edges id, generateEdges 1 (replicate 2 false) [rA; rC] [rA] cfg_example 0 = Some (edges, id) /\
    edges !! 0%nat = Some true.
Proof.
  split; [cbn; lia |]. split; [cbn; lia |]. split; [reflexivity |].
  destruct (generateEdges_edge_iff 1 (replicate 2 false) [rA; rC] [rA] cfg_example 0 0 0
              ltac:(cbn; lia) ltac:(cbn; lia) eq_refl) as (edges & id & E & _ & H).
  exists edges, id. split; [exact E |].
  apply H; [intros [| [| i]]; cbn; discriminate | vm_compute; reflexivity].
Defined.

(** C3: reversal symmetry.  For every score configuration, the aligner on
    [(A, B)] and the aligner on the reversed sequences compute the same
    optimal score, so the assertion in [generateEdges] never fails. *)
Theorem optimal_score_reversal sc A B :
  getOptimalScore (make_gotoh sc A B) = getOptimalScore (make_gotoh sc (rev A) (rev B)) /\
  forall f e0 m, generateEdges f e0 A B sc m <> None.
Proof.
  split; [apply optimal_rev |]. intros f e0 m. rewrite generateEdges_some. discriminate.
Qed.

(** C4: prefix-score semantics.  In range, [getPrefixScore(posA, posB)] is
    the maximum of the three table entries at [(posA, posB)], it is finite,
    bounds the affine score of every alignment of [A[0:posA]] with
    [B[0:posB]] and is attained by one of them; [getOptimalScore()] is
    [getPrefixScore(lenA, lenB)]. *)
Theorem getPrefixScore_best_alignment sc A B posA posB
  (HA : (posA <= length A)%nat) (HB : (posB <= length B)%nat) :
  let g := make_gotoh sc A B in
  getPrefixScore g posA posB =
    smax3 (get (lenB g) (matrixM g) posA posB) (get (lenB g) (matrixH g) posA posB)
          (get (lenB g) (matrixV g) posA posB) /\
  (exists z, getPrefixScore g posA posB = Fin z /\
    (forall cols, aligns cols (firstn posA A) (firstn posB B) -> alignment_score sc cols <= z) /\
    (exists cols, aligns cols (firstn posA A) (firstn posB B) /\ alignment_score sc cols = z)) /\
  getOptimalScore g = getPrefixScore g (length A) (length B).
Proof.
  intros g. split; [reflexivity |]. split; [apply prefix_optimal; assumption | reflexivity].
Qed.

Lemma getPrefixScore_best_alignment_witness :
  (1 <= length [rA; rC])%nat /\ (1 <= length [rA])%nat /\
  getPrefixScore (make_gotoh cfg_example [rA; rC] [rA]) 1 1 = Fin 2.
Proof.
  split; [cbn; lia |]. split; [cbn; lia |].
  destruct (getPrefixScore_best_alignment cfg_example [rA; rC] [rA] 1 1 ltac:(cbn; lia) ltac:(cbn; lia))
    as (_ & (z & E & U & _) & _).
  rewrite E. f_equal. apply Z.le_antisymm.
  - pose proof E as E'. vm_compute in E'. injection E' as <-. lia.
  - apply (U [ColM rA rA]). split; reflexivity.
Defined.

(** C5: margin monotonicity.  For margins [m1 < m2], every edge set with
    margin [m1] is also set with margin [m2]. *)
Theorem generateEdges_margin_monotone f e0 A B sc m1 m2 (Hm : m1 < m2) :
  exists e1 e2 id1 id2,
    generateEdges f e0 A B sc m1 = Some (e1, id1) /\
    generateEdges f e0 A B sc m2 = Some (e2, id2) /\
    forall i, e1 !! i = Some true -> e2 !! i = Some true.
Proof.
  rewrite !generateEdges_some. do 4 eexists. split; [reflexivity | split; [reflexivity |]].
  intros i H.
  apply (proj2 (edge_loop_spec _ _ _ _ _ _ e0) i) in H.
  apply (proj2 (edge_loop_spec _ _ _ _ _ _ e0) i).
  destruct H as [H | (Hi & a & b & Ha & Hb & T & E)]; [left; exact H | right].
  split; [exact Hi |]. exists a, b. split; [exact Ha | split; [exact Hb | split; [| exact E]]].
  eapply edge_test_mono; [| exact T]. lia.
Qed.

Lemma generateEdges_margin_monotone_witness :
  0 < 1 /\
  exists e1 e2 id1 id2,
    generateEdges 1 (replicate 4 false) [rA; rC] [rA; rG] cfg_example 0 = Some (e1, id1) /\
    generateEdges 1 (replicate 4 false) [rA; rC] [rA; rG] cfg_example 1 = Some (e2, id2) /\
    forall i, e1 !! i = Some true -> e2 !! i = Some true.
Proof.
  split; [lia |].
  apply (generateEdges_margin_monotone 1 (replicate 4 false) [rA; rC] [rA; rG] cfg_example 0 1).
  lia.
Defined.

(** C6: degenerate input.  With an empty sequence on either side the edge
    vector is returned unchanged; with both sequences empty the identity
    score divides by [std::max(0, 0) = 0] and is undefined ([None]). *)
Theorem generateEdges_degenerate f e0 sc m :
  (forall B, exists id, generateEdges f e0 [] B sc m = Some (e0, id)) /\
  (forall A, exists id, generateEdges f e0 A [] sc m = Some (e0, id)) /\
  generateEdges f e0 [] [] sc m = Some (e0, None).
Proof.
  split; [| split].
  - intros B. rewrite generateEdges_some. eexists. f_equal.
  - intros A. rewrite generateEdges_some. eexists. f_equal. f_equal.
    unfold edge_loop. cbn [length seq fold_left]. apply fold_left_id.
  - rewrite generateEdges_some. cbn [edge_loop length seq fold_left].
    destruct (getOptimalScore_fin sc [] []) as (z & ->).
    unfold identityScore, qdiv. destruct (Z.eqb f 0); reflexivity.
Qed.

(** C7 (modelled from the spec's ScoreValue): the sentinel [NegInf] is below
    every alignment score, absorbs every finite summand, and a sum with the
    sentinel never wins a maximum against a finite score; in the built
    tables the sentinel is exactly the HorizontalGap entries of column 0 and
    the VerticalGap entries of row 0, while the Match entries and the prefix
    scores are finite. *)
Theorem sentinel_behaviour sc A B :
  let g := make_gotoh sc A B in
  (forall cols, slt NegInf (Fin (alignment_score sc cols)) = true) /\
  (forall z, sadd NegInf (Fin z) = NegInf /\ sadd (Fin z) NegInf = NegInf) /\
  (forall z x, smax (sadd NegInf (Fin z)) (Fin x) = Fin x /\
               smax (Fin x) (sadd NegInf (Fin z)) = Fin x) /\
  (forall a b, (a <= length A)%nat -> (b <= length B)%nat ->
     (get (lenB g) (matrixH g) a b = NegInf <-> b = O) /\
     (get (lenB g) (matrixV g) a b = NegInf <-> a = O) /\
     (exists z, get (lenB g) (matrixM g) a b = Fin z) /\
     (exists z, getPrefixScore g a b = Fin z)).
Proof.
  intros g. split; [reflexivity |]. split; [split; reflexivity |].
  split; [split; reflexivity |].
  intros a b Ha Hb.
  pose proof (make_gotoh_cell sc A B a b Ha Hb) as Hc. cbv zeta in Hc.
  destruct Hc as (EM & EH & EV). subst g. rewrite EM, EH, EV.
  split; [| split; [| split]].
  - destruct b as [| b]; [rewrite cellH_zero; tauto |].
    destruct (cellH_fin sc A B a b) as (z & ->). split; discriminate.
  - destruct a as [| a]; [rewrite cellV_zero; tauto |].
    destruct (cellV_fin sc A B a b) as (z & ->). split; discriminate.
  - apply cellM_fin.
  - destruct (prefix_optimal sc A B a b Ha Hb) as (z & E & _). eauto.
Qed.

(** C8: the concrete scenario.  On [AAAA] against [AAAA] with match +2,
    mismatch -1, gap open -4, gap extend -1 and margin 0, the optimal score
    is 8, the diagonal edges (0,0), (1,1), (2,2), (3,3) are set and the
    identity score is [8 / factor2int / 4]. *)
Theorem generateEdges_AAAA f (Hf : f <> 0) :
  getOptimalScore (make_gotoh cfg_example AAAA AAAA) = Fin 8 /\
  exists edges,
    generateEdges f (replicate 16 false) AAAA AAAA cfg_example 0 =
      Some (edges, Some (Qdiv (Qdiv (inject_Z 8) (inject_Z f)) (inject_Z 4))) /\
    edges !! 0%nat = Some true /\ edges !! 5%nat = Some true /\
    edges !! 10%nat = Some true /\ edges !! 15%nat = Some true.
Proof.
  assert (O : getOptimalScore (make_gotoh cfg_example AAAA AAAA) = Fin 8)
    by (vm_compute; reflexivity).
  split; [exact O |].
  rewrite generateEdges_some, O. eexists. split.
  - f_equal. f_equal. unfold identityScore, qdiv.
    apply Z.eqb_neq in Hf. rewrite Hf. reflexivity.
  - vm_compute. repeat split.
Qed.

Lemma generateEdges_AAAA_witness :
  1000 <> 0 /\ getOptimalScore (make_gotoh cfg_example AAAA AAAA) = Fin 8.
Proof.
  assert (H : 1000 <> 0) by lia. split; [exact H |].
  exact (proj1 (generateEdges_AAAA 1000 H)).
Defined.

(** C9: the frame of [generateEdges].  The returned vector has the length of
    the one passed in, keeps every true cell, differs from it only at cells
    [lenB * a + b] with [a < lenA], [b < lenB] that it sets to true, and has
    at most [lenA * lenB] more true cells. *)
Theorem generateEdges_frame f e0 A B sc m :
  exists edges id, generateEdges f e0 A B sc m = Some (edges, id) /\
    length edges = length e0 /\
    (forall i, e0 !! i = Some true -> edges !! i = Some true) /\
    (forall i, edges !! i <> e0 !! i ->
       edges !! i = Some true /\
       exists a b, (a < length A)%nat /\ (b < length B)%nat /\ i = (length B * a + b)%nat) /\
    (count_true edges <= count_true e0 + length A * length B)%nat.
Proof.
  rewrite generateEdges_some.
  set (fw := make_gotoh sc A B). set (bw := make_gotoh sc (rev A) (rev B)).
  set (thr := ssub (getOptimalScore fw) m).
  exists (edge_loop fw bw sc A B thr e0), (identityScore f (getOptimalScore fw) (length A) (length B)).
  split; [reflexivity |].
  destruct (edge_loop_spec fw bw sc A B thr e0) as (L & S).
  split; [exact L |]. split; [intros i H; apply S; left; exact H |].
  split; [| apply edge_loop_count].
  intros i D.
  destruct (edge_loop fw bw sc A B thr e0 !! i) as [v |] eqn:Ei.
  - destruct v.
    + split; [reflexivity |].
      destruct (proj1 (S i) Ei) as [H | (_ & a & b & Ha & Hb & _ & E)].
      * rewrite H in D. congruence.
      * exists a, b. auto.
    + exfalso. apply D. destruct (e0 !! i) as [w |] eqn:E0.
      * destruct w; [| reflexivity].
        rewrite (proj2 (S i) (or_introl E0)) in Ei. discriminate.
      * apply lookup_ge_None in E0. rewrite <- L in E0.
        apply lookup_ge_None in E0. congruence.
  - exfalso. apply D. apply lookup_ge_None in Ei. rewrite L in Ei.
    symmetry. apply lookup_ge_None. exact Ei.
Qed.

(** C10: the Match table is finite at every in-range cell, so
    [getPrefixScore] is finite for every in-range query and
    [getOptimalScore] is finite. *)
Theorem matrixM_finite sc A B posA posB
  (HA : (posA <= length A)%nat) (HB : (posB <= length B)%nat) :
  let g := make_gotoh sc A B in
  (exists z, get (lenB g) (matrixM g) posA posB = Fin z) /\
  (exists z, getPrefixScore g posA posB = Fin z) /\
  (exists z, getOptimalScore g = Fin z).
Proof.
  intros g.
  pose proof (make_gotoh_cell sc A B posA posB HA HB) as Hc. cbv zeta in Hc.
  destruct Hc as (EM & _ & _). subst g. rewrite EM.
  split; [apply cellM_fin |]. split; [| apply getOptimalScore_fin].
  destruct (prefix_optimal sc A B posA posB HA HB) as (z & E & _). eauto.
Qed.

Lemma matrixM_finite_witness :
  (2 <= length AAAA)%nat /\ (3 <= length [rC; rG; rU])%nat /\
  exists z, getPrefixScore (make_gotoh cfg_example AAAA [rC; rG; rU]) 2 3 = Fin z.
Proof.
  assert (HA : (2 <= length AAAA)%nat) by (cbn; lia).
  assert (HB : (3 <= length [rC; rG; rU])%nat) by (cbn; lia).
  split; [exact HA |]. split; [exact HB |].
  exact (proj1 (proj2 (matrixM_finite cfg_example AAAA [rC; rG; rU] 2 3 HA HB))).
Defined.

(** * Further properties of the code *)

(** ** Helpers *)

Lemma split_nth (A : list Rna5) a : (a < length A)%nat -> A = firstn a A ++ at_ A a :: skipn (S a) A.
Proof.
  unfold at_. revert a. induction A as [| x A IH]; intros [| a] H; cbn in *; try lia; [reflexivity |].
  f_equal. apply IH. lia.
Qed.

Lemma rev_firstn_rev (A : list Rna5) a :
  (a < length A)%nat -> rev (firstn (length A - a - 1) (rev A)) = skipn (S a) A.
Proof. intros H. rewrite firstn_rev, rev_involutive. f_equal. lia. Qed.

Lemma alignment_score_match sc c1 x y c2 :
  alignment_score sc (c1 ++ ColM x y :: c2) =
  alignment_score sc c1 + score_fn sc x y + alignment_score sc c2.
Proof.
  unfold alignment_score. rewrite aln_score_app. cbn [aln_score col_score col_kind].
  rewrite aln_score_KM. lia.
Qed.

(** The sum the loop of [generateEdges] compares is the best score of the
    full alignments that align [A[a]] with [B[b]]. *)
Lemma forced_best sc A B a b : (a < length A)%nat -> (b < length B)%nat ->
  exists z,
    sadd (sadd (getPrefixScore (make_gotoh sc A B) a b) (score sc (at_ A a) (at_ B b)))
         (getPrefixScore (make_gotoh sc (rev A) (rev B)) (length A - a - 1) (length B - b - 1)) = Fin z /\
    (forall cols, aligns cols A B -> match_at cols a b -> alignment_score sc cols <= z) /\
    (exists cols, aligns cols A B /\ match_at cols a b /\ alignment_score sc cols = z).
Proof.
  intros Ha Hb.
  destruct (prefix_optimal sc A B a b) as (z1 & P1 & U1 & c1 & Al1 & S1); [lia | lia |].
  destruct (prefix_optimal sc (rev A) (rev B) (length A - a - 1) (length B - b - 1))
    as (z2 & P2 & U2 & c2 & Al2 & S2); [rewrite length_rev; lia | rewrite length_rev; lia |].
  rewrite P1, P2. exists (z1 + score_fn sc (at_ A a) (at_ B b) + z2).
  split; [reflexivity |]. split.
  - intros cols Hal Hm.
    destruct (match_split cols A B a b Hal Hm) as (d1 & d2 & x & y & -> & _ & _ & <- & <- & D1 & D2).
    specialize (U1 d1 D1). specialize (U2 (rev d2) D2). rewrite alignment_score_rev in U2.
    rewrite alignment_score_match. lia.
  - destruct Al1 as (E1a & E1b). destruct Al2 as (E2a & E2b).
    exists (c1 ++ ColM (at_ A a) (at_ B b) :: rev c2). split; [| split].
    + split; rewrite ?projA_app, ?projB_app; cbn [projA projB];
        rewrite ?projA_rev, ?projB_rev, ?E1a, ?E1b, ?E2a, ?E2b, rev_firstn_rev by lia;
        symmetry; apply split_nth; lia.
    + exists c1, (rev c2), (at_ A a), (at_ B b). split; [reflexivity |].
      rewrite E1a, E1b, !firstn_length_le by lia. split; reflexivity.
    + rewrite alignment_score_match, alignment_score_rev, S1, S2. reflexivity.
Qed.

Lemma edge_loop_at fw bw sc A B thr e0 a b :
  (a < length A)%nat -> (b < length B)%nat -> length e0 = (length A * length B)%nat ->
  (edge_loop fw bw sc A B thr e0 !! (length B * a + b)%nat = Some true <->
   e0 !! (length B * a + b)%nat = Some true \/ edge_test fw bw sc A B thr a b = true).
Proof.
  intros Ha Hb Hl. destruct (edge_loop_spec fw bw sc A B thr e0) as (_ & Hs). split.
  - intros H. apply Hs in H.
    destruct H as [H | (_ & a' & b' & _ & Hb' & T & E)]; [left; exact H | right].
    destruct (grid_inj (length B) a' b' a b Hb' Hb E) as (-> & ->). exact T.
  - intros H. apply Hs. destruct H as [H | H]; [left; exact H | right]. split; [nia |].
    exists a, b. split; [lia | split; [lia | split; [exact H | reflexivity]]].
Qed.

Lemma bool_list_ext (l1 l2 : list bool) :
  length l1 = length l2 -> (forall i, l1 !! i = Some true <-> l2 !! i = Some true) -> l1 = l2.
Proof.
  intros L H. apply list_eq. intros i.
  destruct (l1 !! i) as [v |] eqn:E1, (l2 !! i) as [w |] eqn:E2.
  - specialize (H i). rewrite E1, E2 in H. destruct v, w; try reflexivity.
    + destruct (proj1 H eq_refl). reflexivity.
    + symmetry. destruct (proj2 H eq_refl). reflexivity.
  - apply lookup_ge_None in E2. pose proof (lookup_lt_Some _ _ _ E1). lia.
  - apply lookup_ge_None in E1. pose proof (lookup_lt_Some _ _ _ E2). lia.
  - reflexivity.
Qed.

Lemma last_kind_start p cols : last_kind p cols = KStart -> p = KStart /\ cols = [].
Proof.
  revert p. induction cols as [| c cols IH]; intros p H; cbn in H; [auto |].
  destruct (IH _ H) as (Hc & _). destruct c; discriminate.
Qed.

(** A table entry that bounds every alignment of a class and is attained by
    one when finite is the best score of the class, [NegInf] when empty. *)
Lemma table_char sc (v : ScoreType) (P : list Column -> Prop) :
  (forall cols, P cols -> sge v (Fin (alignment_score sc cols)) = true) ->
  (forall z, v = Fin z -> exists cols, P cols /\ alignment_score sc cols = z) ->
  (forall z, v = Fin z <-> (exists cols, P cols /\ alignment_score sc cols = z) /\
                          (forall cols, P cols -> alignment_score sc cols <= z)) /\
  (v = NegInf <-> forall cols, ~ P cols).
Proof.
  intros Hb Ha. destruct v as [| w].
  - split.
    + intros z. split; [discriminate |]. intros ((cols & Pc & _) & _).
      specialize (Hb cols Pc). discriminate.
    + split; [| reflexivity]. intros _ cols Pc. specialize (Hb cols Pc). discriminate.
  - split.
    + intros z. split.
      * intros E. injection E as <-. split; [apply Ha; reflexivity |].
        intros cols Pc. specialize (Hb cols Pc). cbn in Hb. zgeb.
      * intros ((cols & Pc & Sc) & U). destruct (Ha w eq_refl) as (cols' & Pc' & Sc').
        specialize (Hb cols Pc). specialize (U cols' Pc'). cbn in Hb. f_equal.
        apply Z.geb_le in Hb. lia.
    + split; [discriminate |]. intros H. destruct (Ha w eq_refl) as (cols & Pc & _).
      destruct (H cols Pc).
Qed.

Lemma ends_in_bound sc A B a b k cols : (a <= length A)%nat -> (b <= length B)%nat ->
  ends_in A B a b k cols ->
  sge (table_of k (cell sc A B a b)) (Fin (alignment_score sc cols)) = true.
Proof.
  intros Ha Hb ((EA & EB) & <-). apply cell_bound; assumption.
Qed.

Lemma forced_score_best_aux sc A B a b : (a < length A)%nat -> (b < length B)%nat ->
  exists z zo,
    sadd (sadd (getPrefixScore (make_gotoh sc A B) a b) (score sc (at_ A a) (at_ B b)))
         (getPrefixScore (make_gotoh sc (rev A) (rev B)) (length A - a - 1) (length B - b - 1)) = Fin z /\
    getOptimalScore (make_gotoh sc A B) = Fin zo /\ z <= zo.
Proof.
  intros Ha Hb. destruct (forced_best sc A B a b Ha Hb) as (z & E & _ & cols & Al & _ & Sc).
  destruct (optimal_full sc A B) as (zo & O & Uo & _). exists z, zo.
  split; [exact E | split; [exact O |]]. rewrite <- Sc. apply Uo, Al.
Qed.

Lemma fresh_lookup fw bw sc A B thr a b : (a < length A)%nat -> (b < length B)%nat ->
  edge_loop fw bw sc A B thr (replicate (length A * length B) false) !! (length B * a + b)%nat =
  Some (edge_test fw bw sc A B thr a b).
Proof.
  intros Ha Hb.
  destruct (edge_loop_spec fw bw sc A B thr (replicate (length A * length B) false)) as (L & _).
  rewrite length_replicate in L.
  pose proof (edge_loop_at fw bw sc A B thr (replicate (length A * length B) false) a b Ha Hb
                (length_replicate _ _)) as H.
  destruct (edge_loop fw bw sc A B thr (replicate (length A * length B) false) !! (length B * a + b)%nat)
    as [v |] eqn:Ev.
  - f_equal. destruct v, (edge_test fw bw sc A B thr a b) eqn:T; try reflexivity.
    + destruct (proj1 H eq_refl) as [R | R]; [| discriminate].
      apply lookup_replicate in R. destruct R as (R & _). discriminate.
    + exfalso. assert (X : Some false = Some true) by (apply H; right; reflexivity). discriminate.
  - apply lookup_ge_None in Ev. rewrite L in Ev. nia.
Qed.

Lemma row_lower (g : nat -> Z) k : exists L, forall b, (b < k)%nat -> L <= g b.
Proof.
  induction k as [| k (L & HL)]; [exists 0; intros; lia |].
  exists (Z.min L (g k)). intros b Hb.
  destruct (Nat.eq_dec b k) as [-> | Hne]; [lia | specialize (HL b ltac:(lia)); lia].
Qed.

Lemma grid_lower (F : nat -> nat -> Z) n k :
  exists L, forall a b, (a < n)%nat -> (b < k)%nat -> L <= F a b.
Proof.
  induction n as [| n (L & HL)]; [exists 0; intros; lia |].
  destruct (row_lower (F n) k) as (L2 & H2).
  exists (Z.min L L2). intros a b Ha Hb.
  destruct (Nat.eq_dec a n) as [-> | Hne]; [specialize (H2 b Hb); lia | specialize (HL a b ltac:(lia) Hb); lia].
Qed.

Lemma projA_tr cols : projA (map tr_col cols) = projB cols.
Proof. induction cols as [| [] cols IH]; cbn; rewrite ?IH; reflexivity. Qed.

Lemma projB_tr cols : projB (map tr_col cols) = projA cols.
Proof. induction cols as [| [] cols IH]; cbn; rewrite ?IH; reflexivity. Qed.

Lemma aln_score_tr sc sc' :
  (forall x y, score_fn sc' y x = score_fn sc x y) ->
  data_gap_open sc' = data_gap_open sc -> data_gap_extend sc' = data_gap_extend sc ->
  forall cols p, aln_score sc' (tr_kind p) (map tr_col cols) = aln_score sc p cols.
Proof.
  intros Hs Ho He cols. induction cols as [| c cols IH]; intros p; [reflexivity |].
  cbn [map aln_score].
  replace (col_kind (tr_col c)) with (tr_kind (col_kind c)) by (destruct c; reflexivity).
  rewrite IH. f_equal. destruct c, p; cbn; rewrite ?Hs, ?Ho, ?He; reflexivity.
Qed.

Lemma prefix_transpose sc A B a b : (a <= length A)%nat -> (b <= length B)%nat ->
  getPrefixScore (make_gotoh (transposeScore sc) B A) b a = getPrefixScore (make_gotoh sc A B) a b.
Proof.
  intros Ha Hb.
  destruct (prefix_optimal sc A B a b Ha Hb) as (z1 & P1 & U1 & c1 & (E1a & E1b) & S1).
  destruct (prefix_optimal (transposeScore sc) B A b a Hb Ha) as (z2 & P2 & U2 & c2 & (E2a & E2b) & S2).
  rewrite P1, P2. f_equal. apply Z.le_antisymm.
  - rewrite <- S2. unfold alignment_score.
    rewrite <- (aln_score_tr (transposeScore sc) sc (fun _ _ => eq_refl) eq_refl eq_refl c2 KStart).
    apply U1. split; [rewrite projA_tr; exact E2b | rewrite projB_tr; exact E2a].
  - rewrite <- S1. unfold alignment_score.
    rewrite <- (aln_score_tr sc (transposeScore sc) (fun _ _ => eq_refl) eq_refl eq_refl c1 KStart).
    apply U2. split; [rewrite projA_tr; exact E1b | rewrite projB_tr; exact E1a].
Qed.

Lemma optimal_transpose sc A B :
  getOptimalScore (make_gotoh (transposeScore sc) B A) = getOptimalScore (make_gotoh sc A B).
Proof. exact (prefix_transpose sc A B (length A) (length B) (le_n _) (le_n _)). Qed.

(** ** The constructor *)

(** X1: the constructor's flat vectors have [(lenA + 1) * (lenB + 1)] entries
    and every in-range entry is the value of the Gotoh recurrence at its cell
    (no write of the fill loop is lost or overwritten). *)
Theorem make_gotoh_tables sc A B :
  let g := make_gotoh sc A B in
  lenA g = length A /\ lenB g = length B /\
  length (matrixM g) = ((length A + 1) * (length B + 1))%nat /\
  length (matrixH g) = ((length A + 1) * (length B + 1))%nat /\
  length (matrixV g) = ((length A + 1) * (length B + 1))%nat /\
  forall a b, (a <= length A)%nat -> (b <= length B)%nat ->
    get (lenB g) (matrixM g) a b = cM (cell sc A B a b) /\
    get (lenB g) (matrixH g) a b = cH (cell sc A B a b) /\
    get (lenB g) (matrixV g) a b = cV (cell sc A B a b).
Proof.
  intros g. destruct (agree_build sc A B) as (LM & LH & LV & _).
  split; [reflexivity | split; [reflexivity |]].
  split; [exact LM | split; [exact LH | split; [exact LV |]]].
  intros a b Ha Hb. exact (make_gotoh_cell sc A B a b Ha Hb).
Qed.

(** X2: the boundary of the tables.  The empty prefixes score 0; a prefix of
    length [a + 1] against an empty prefix scores one gap open plus [a] gap
    extensions, and symmetrically. *)
Theorem getPrefixScore_boundary sc A B :
  let g := make_gotoh sc A B in
  getPrefixScore g 0 0 = Fin 0 /\
  (forall a, (a < length A)%nat ->
     getPrefixScore g (S a) 0 = Fin (data_gap_open sc + data_gap_extend sc * Z.of_nat a)) /\
  (forall b, (b < length B)%nat ->
     getPrefixScore g 0 (S b) = Fin (data_gap_open sc + data_gap_extend sc * Z.of_nat b)).
Proof.
  intros g. subst g. split; [| split].
  - rewrite getPrefixScore_cell by lia. reflexivity.
  - intros a Ha. rewrite getPrefixScore_cell by lia. cbn. rewrite Z.max_id. reflexivity.
  - intros b Hb. rewrite getPrefixScore_cell by lia. cbn. rewrite Z.max_id. reflexivity.
Qed.

(** X3: each table holds the best score of the alignments of the prefixes
    that end in its state: HorizontalGap for a last column that is a gap in
    A, VerticalGap for a gap in B ([NegInf] exactly when there is no such
    alignment), Match for a last match/mismatch column when both prefixes
    are non-empty. *)
Theorem tables_best_by_state sc A B a b
  (Ha : (a <= length A)%nat) (Hb : (b <= length B)%nat) :
  let g := make_gotoh sc A B in
  (forall z, get (lenB g) (matrixH g) a b = Fin z <-> best_in sc A B a b KH z) /\
  (get (lenB g) (matrixH g) a b = NegInf <-> forall cols, ~ ends_in A B a b KH cols) /\
  (forall z, get (lenB g) (matrixV g) a b = Fin z <-> best_in sc A B a b KV z) /\
  (get (lenB g) (matrixV g) a b = NegInf <-> forall cols, ~ ends_in A B a b KV cols) /\
  ((1 <= a)%nat -> (1 <= b)%nat ->
     forall z, get (lenB g) (matrixM g) a b = Fin z <-> best_in sc A B a b KM z).
Proof.
  intros g. subst g.
  destruct (make_gotoh_cell sc A B a b Ha Hb) as (EM & EH & EV). rewrite EM, EH, EV.
  destruct (cell_witness sc A B a Ha b Hb) as (WM & WH & WV).
  assert (Ach : forall cols z, achieves sc A B a b cols z -> aligns cols (firstn a A) (firstn b B) /\
                                alignment_score sc cols = z).
  { intros cols z (E1 & E2 & E3). split; [split; assumption | exact E3]. }
  destruct (table_char sc (cH (cell sc A B a b)) (ends_in A B a b KH)) as (H1 & H2).
  { intros cols P. exact (ends_in_bound sc A B a b KH cols Ha Hb P). }
  { intros z E. destruct (WH z E) as (cols & Hc & Hk). destruct (Ach _ _ Hc) as (Al & Sc).
    exists cols. split; [split; assumption | exact Sc]. }
  destruct (table_char sc (cV (cell sc A B a b)) (ends_in A B a b KV)) as (V1 & V2).
  { intros cols P. exact (ends_in_bound sc A B a b KV cols Ha Hb P). }
  { intros z E. destruct (WV z E) as (cols & Hc & Hk). destruct (Ach _ _ Hc) as (Al & Sc).
    exists cols. split; [split; assumption | exact Sc]. }
  split; [exact H1 | split; [exact H2 | split; [exact V1 | split; [exact V2 |]]]].
  intros Ha1 Hb1.
  destruct (table_char sc (cM (cell sc A B a b)) (ends_in A B a b KM)) as (M1 & _).
  { intros cols P. exact (ends_in_bound sc A B a b KM cols Ha Hb P). }
  { intros z E. destruct (WM z E) as (cols & Hc & Hk1 & Hk2). destruct (Ach _ _ Hc) as ((EA & EB) & Sc).
    exists cols. split; [| exact Sc]. split; [split; assumption |].
    specialize (Hk1 Ha1). specialize (Hk2 Hb1).
    destruct (last_kind KStart cols) eqn:K; try contradiction; [| reflexivity].
    destruct (last_kind_start _ _ K) as (_ & ->).
    cbn in EA. pose proof (f_equal (@length Rna5) EA) as L.
    rewrite firstn_length_le in L by lia. cbn in L. lia. }
  exact M1.
Qed.

Lemma tables_best_by_state_witness :
  (1 <= length [rA; rC])%nat /\ (1 <= length [rC])%nat /\
  best_in cfg_example [rA; rC] [rC] 1 1 KM (-1).
Proof.
  assert (Ha : (1 <= length [rA; rC])%nat) by (cbn; lia).
  assert (Hb : (1 <= length [rC])%nat) by (cbn; lia).
  split; [exact Ha | split; [exact Hb |]].
  destruct (tables_best_by_state cfg_example [rA; rC] [rC] 1 1 Ha Hb) as (_ & _ & _ & _ & M).
  apply (M ltac:(lia) ltac:(lia)). vm_compute. reflexivity.
Defined.

(** ** The edge filter *)

(** X4: the sum [forward.getPrefixScore(a, b) + score(A[a], B[b]) +
    backward.getPrefixScore(lenA - a - 1, lenB - b - 1)] the loop compares is
    finite, is the best score of the full alignments that align [A[a]] with
    [B[b]], and never exceeds the optimal score. *)
Theorem forced_score_best sc A B a b (Ha : (a < length A)%nat) (Hb : (b < length B)%nat) :
  exists z,
    sadd (sadd (getPrefixScore (make_gotoh sc A B) a b) (score sc (at_ A a) (at_ B b)))
         (getPrefixScore (make_gotoh sc (rev A) (rev B)) (length A - a - 1) (length B - b - 1)) = Fin z /\
    (forall cols, aligns cols A B -> match_at cols a b -> alignment_score sc cols <= z) /\
    (exists cols, aligns cols A B /\ match_at cols a b /\ alignment_score sc cols = z) /\
    (exists zo, getOptimalScore (make_gotoh sc A B) = Fin zo /\ z <= zo).
Proof.
  destruct (forced_best sc A B a b Ha Hb) as (z & E & U & cols & Al & Hm & Sc).
  exists z. split; [exact E | split; [exact U | split; [exists cols; auto |]]].
  destruct (optimal_full sc A B) as (zo & O & Uo & _). exists zo. split; [exact O |].
  rewrite <- Sc. apply Uo, Al.
Qed.

Lemma forced_score_best_witness :
  (1 < length [rA; rC])%nat /\ (0 < length [rC])%nat /\
  exists z, sadd (sadd (getPrefixScore (make_gotoh cfg_example [rA; rC] [rC]) 1 0)
                       (score cfg_example (at_ [rA; rC] 1) (at_ [rC] 0)))
                 (getPrefixScore (make_gotoh cfg_example (rev [rA; rC]) (rev [rC])) 0 0) = Fin z /\
            z <= 0.
Proof.
  assert (Ha : (1 < length [rA; rC])%nat) by (cbn; lia).
  assert (Hb : (0 < length [rC])%nat) by (cbn; lia).
  split; [exact Ha | split; [exact Hb |]].
  destruct (forced_score_best cfg_example [rA; rC] [rC] 1 0 Ha Hb) as (z & E & _ & _ & zo & O & Le).
  exists z. split; [exact E |]. pose proof O as O2. vm_compute in O2. injection O2 as <-. lia.
Defined.

(** X5: the filter is exact.  For a grid-sized edge vector, [generateEdges]
    sets cell [lenB * a + b] exactly when it was set on entry or some full
    alignment within the margin aligns [A[a]] with [B[b]]. *)
Theorem generateEdges_exact f e0 A B sc m a b
  (Ha : (a < length A)%nat) (Hb : (b < length B)%nat)
  (Hlen : length e0 = (length A * length B)%nat) :
  exists edges id, generateEdges f e0 A B sc m = Some (edges, id) /\
    (edges !! (length B * a + b)%nat = Some true <->
       e0 !! (length B * a + b)%nat = Some true \/
       exists cols, aligns cols A B /\ match_at cols a b /\
         sge (Fin (alignment_score sc cols)) (ssub (getOptimalScore (make_gotoh sc A B)) m) = true).
Proof.
  rewrite generateEdges_some. eexists _, _. split; [reflexivity |].
  rewrite edge_loop_at by assumption.
  destruct (forced_best sc A B a b Ha Hb) as (z & E & U & cols & Al & Hm & Sc).
  destruct (optimal_full sc A B) as (zo & O & _).
  unfold edge_test. cbv zeta. rewrite E, O. cbn [ssub sge]. split.
  - intros [H | H]; [left; exact H | right]. exists cols. split; [exact Al | split; [exact Hm |]].
    rewrite Sc. exact H.
  - intros [H | (cols' & Al' & Hm' & H)]; [left; exact H | right].
    specialize (U cols' Al' Hm'). cbn in H. zgeb.
Qed.

Lemma generateEdges_exact_witness :
  (0 < length [rA])%nat /\ (0 < length [rA])%nat /\ length [false] = (length [rA] * length [rA])%nat /\
  exists edges id, generateEdges 1 [false] [rA] [rA] cfg_example 0 = Some (edges, id) /\
    edges !! 0%nat = Some true.
Proof.
  assert (Ha : (0 < length [rA])%nat) by (cbn; lia).
  split; [exact Ha | split; [exact Ha | split; [reflexivity |]]].
  destruct (generateEdges_exact 1 [false] [rA] [rA] cfg_example 0 0 0 Ha Ha eq_refl)
    as (edges & id & E & H).
  exists edges, id. split; [exact E |]. apply H. right.
  exists [ColM rA rA]. split; [split; reflexivity |].
  split; [exists [], [], rA, rA; split; [reflexivity | split; reflexivity] |].
  vm_compute. reflexivity.
Defined.

(** X6: with a negative margin the threshold lies above every forced score,
    so [generateEdges] sets no cell and returns the edge vector unchanged. *)
Theorem generateEdges_negative_margin f e0 A B sc m (Hm : m < 0) :
  exists id, generateEdges f e0 A B sc m = Some (e0, id).
Proof.
  rewrite generateEdges_some. eexists. f_equal. f_equal.
  destruct (edge_loop_spec (make_gotoh sc A B) (make_gotoh sc (rev A) (rev B)) sc A B
              (ssub (getOptimalScore (make_gotoh sc A B)) m) e0) as (L & S).
  apply bool_list_ext; [exact L |]. intros i. rewrite S. split; [| intros H; left; exact H].
  intros [H | (_ & a & b & Ha & Hb & T & _)]; [exact H | exfalso].
  destruct (forced_score_best_aux sc A B a b Ha Hb) as (z & zo & E & O & Le).
  unfold edge_test in T. cbv zeta in T. rewrite E, O in T. cbn [ssub sge] in T. zgeb.
Qed.

Lemma generateEdges_negative_margin_witness :
  -1 < 0 /\ exists id, generateEdges 1 [false; false] [rA] [rA; rA] cfg_example (-1) =
                       Some ([false; false], id).
Proof.
  assert (H : -1 < 0) by lia. split; [exact H |].
  exact (generateEdges_negative_margin 1 [false; false] [rA] [rA; rA] cfg_example (-1) H).
Defined.

(** X7: [generateEdges] on a grid-sized vector sets the same cells as on a
    fresh all-false grid: its result is the cell-wise [or] of the input with
    the result on the fresh grid, and the identity score is the same. *)
Theorem generateEdges_or_fresh f e0 A B sc m
  (Hlen : length e0 = (length A * length B)%nat) :
  exists E id, generateEdges f (replicate (length A * length B) false) A B sc m = Some (E, id) /\
    generateEdges f e0 A B sc m = Some (zip_with orb e0 E, id).
Proof.
  rewrite !generateEdges_some. eexists _, _. split; [reflexivity |]. f_equal. f_equal.
  set (fw := make_gotoh sc A B). set (bw := make_gotoh sc (rev A) (rev B)).
  set (thr := ssub (getOptimalScore fw) m).
  destruct (edge_loop_spec fw bw sc A B thr e0) as (L1 & S1).
  destruct (edge_loop_spec fw bw sc A B thr (replicate (length A * length B) false)) as (L2 & S2).
  rewrite length_replicate in L2.
  apply bool_list_ext; [rewrite length_zip_with, L1, L2, Hlen; lia |].
  intros i. rewrite S1, lookup_zip_with.
  destruct (e0 !! i) as [v |] eqn:E0.
  - pose proof (lookup_lt_Some _ _ _ E0) as Hi.
    destruct (edge_loop fw bw sc A B thr (replicate (length A * length B) false) !! i) as [w |] eqn:Ew.
    + simpl. pose proof (S2 i) as S2i. rewrite Ew in S2i.
      destruct v; [simpl; tauto |]. destruct w; simpl.
      * split; [reflexivity | intros _; right].
        destruct (proj1 S2i eq_refl) as [R | (_ & R)]; [| split; [exact Hi | exact R]].
        apply lookup_replicate in R. destruct R as (R & _). discriminate.
      * split; [| discriminate]. intros [H | (_ & R)]; [discriminate |].
        exfalso. assert (X : Some false = Some true)
          by (apply S2i; right; split; [rewrite length_replicate; lia | exact R]).
        discriminate.
    + apply lookup_ge_None in Ew. rewrite L2 in Ew. lia.
  - simpl. split; [| discriminate]. intros [H | (Hi & _)]; [discriminate |].
    apply lookup_ge_None in E0. lia.
Qed.

Lemma generateEdges_or_fresh_witness :
  length [true; false] = (length [rA; rC] * length [rA])%nat /\
  exists E id, generateEdges 1 (replicate 2 false) [rA; rC] [rA] cfg_example 0 = Some (E, id) /\
    generateEdges 1 [true; false] [rA; rC] [rA] cfg_example 0 = Some (zip_with orb [true; false] E, id).
Proof.
  split; [reflexivity |].
  exact (generateEdges_or_fresh 1 [true; false] [rA; rC] [rA] cfg_example 0 eq_refl).
Defined.

(** X8: [generateEdges] is idempotent: called again on the vector it
    returned, with the same sequences, scores and margin, it changes nothing. *)
Theorem generateEdges_idempotent f e0 A B sc m :
  exists e1 id, generateEdges f e0 A B sc m = Some (e1, id) /\
    generateEdges f e1 A B sc m = Some (e1, id).
Proof.
  eexists _, _. split; [rewrite generateEdges_some; reflexivity |].
  rewrite generateEdges_some. f_equal. f_equal.
  set (fw := make_gotoh sc A B). set (bw := make_gotoh sc (rev A) (rev B)).
  set (thr := ssub (getOptimalScore fw) m).
  destruct (edge_loop_spec fw bw sc A B thr e0) as (L1 & S1).
  destruct (edge_loop_spec fw bw sc A B thr (edge_loop fw bw sc A B thr e0)) as (L2 & S2).
  apply bool_list_ext; [exact L2 |]. intros i. rewrite S2.
  split; [| intros H; left; exact H].
  intros [H | (Hi & X)]; [exact H |]. apply S1. right. split; [rewrite <- L1; exact Hi | exact X].
Qed.

(** X9: with a wide enough margin every pair is an edge: on a fresh grid
    [generateEdges] then returns the all-true grid. *)
Theorem generateEdges_wide_margin f A B sc :
  exists m0, forall m, m0 <= m -> exists id,
    generateEdges f (replicate (length A * length B) false) A B sc m =
      Some (replicate (length A * length B) true, id).
Proof.
  set (fw := make_gotoh sc A B). set (bw := make_gotoh sc (rev A) (rev B)).
  set (F := fun a b => match sadd (sadd (getPrefixScore fw a b) (score sc (at_ A a) (at_ B b)))
                         (getPrefixScore bw (length A - a - 1) (length B - b - 1)) with
                       | Fin z => z | NegInf => 0 end).
  destruct (grid_lower F (length A) (length B)) as (Lo & HL).
  destruct (getOptimalScore_fin sc A B) as (zo & O).
  exists (zo - Lo). intros m Hm.
  assert (T : forall a b, (a < length A)%nat -> (b < length B)%nat ->
              edge_test fw bw sc A B (ssub (getOptimalScore fw) m) a b = true).
  { intros a b Ha Hb. specialize (HL a b Ha Hb).
    destruct (forced_best sc A B a b Ha Hb) as (z & E & _).
    unfold F in HL. fold fw bw in E. rewrite E in HL.
    unfold edge_test. cbv zeta. rewrite E. unfold fw. rewrite O. cbn [ssub sge]. zgeb. }
  rewrite generateEdges_some. eexists. f_equal. f_equal. fold fw bw.
  destruct (edge_loop_spec fw bw sc A B (ssub (getOptimalScore fw) m)
              (replicate (length A * length B) false)) as (L & S).
  apply bool_list_ext; [rewrite L, !length_replicate; reflexivity |].
  intros i. rewrite S, (lookup_replicate (length A * length B) true true i), length_replicate. split.
  - intros [R | (Hi & _)]; [apply lookup_replicate in R; destruct R as (R & _); discriminate |].
    split; [reflexivity | exact Hi].
  - intros (_ & Hi). right. split; [exact Hi |].
    assert (NB : length B <> 0%nat) by (intros E; rewrite E in Hi; lia).
    exists (i / length B)%nat, (i mod length B)%nat.
    pose proof (Nat.div_mod i (length B) NB) as D. pose proof (Nat.mod_upper_bound i (length B) NB).
    assert (Ha : (i / length B < length A)%nat) by nia.
    split; [exact Ha | split; [lia | split; [apply T; [exact Ha | lia] | lia]]].
Qed.

(** X10: exchanging the two sequences and transposing the substitution
    matrix transposes the prefix scores: the aligner on [(B, A)] gives at
    [(b, a)] what the aligner on [(A, B)] gives at [(a, b)], and both have
    the same optimal score. *)
Theorem getPrefixScore_transpose sc A B :
  (forall a b, (a <= length A)%nat -> (b <= length B)%nat ->
     getPrefixScore (make_gotoh (transposeScore sc) B A) b a =
     getPrefixScore (make_gotoh sc A B) a b) /\
  getOptimalScore (make_gotoh (transposeScore sc) B A) = getOptimalScore (make_gotoh sc A B).
Proof. split; [apply prefix_transpose | apply optimal_transpose]. Qed.

(** X11: [generateEdges] on [(B, A)] with the transposed substitution
    matrix, on a fresh grid, returns the transposed edge grid of the call on
    [(A, B)]: pair [(b, a)] is set exactly when [(a, b)] is; the identity
    scores are equal. *)
Theorem generateEdges_transpose f A B sc m :
  exists E1 E2 id,
    generateEdges f (replicate (length A * length B) false) A B sc m = Some (E1, id) /\
    generateEdges f (replicate (length B * length A) false) B A (transposeScore sc) m = Some (E2, id) /\
    forall a b, (a < length A)%nat -> (b < length B)%nat ->
      E1 !! (length B * a + b)%nat = E2 !! (length A * b + a)%nat.
Proof.
  rewrite !generateEdges_some. eexists _, _, _. split; [reflexivity |]. split.
  { f_equal. f_equal. unfold identityScore. rewrite optimal_transpose, (Nat.max_comm (length B)).
    reflexivity. }
  intros a b Ha Hb.
  rewrite !fresh_lookup by assumption. f_equal.
  unfold edge_test. cbv zeta.
  rewrite optimal_transpose, (prefix_transpose sc A B a b) by lia.
  rewrite (prefix_transpose sc (rev A) (rev B)) by (rewrite length_rev; lia).
  reflexivity.
Qed.

